(** * neuralmagicML.utils.helpers: a shallow embedding and its properties

    The general helper functions of [neuralmagicML/utils/helpers.py] are
    embedded as Rocq functions, one definition per Python function, and the
    properties stated for them are proved about these definitions.

    Conventions of the embedding:
    - a Python [float] is an exact rational ([Q]); rounding, overflow,
      infinities and NaN of the binary64 format are outside the model, and
      [sys.float_info.epsilon] is the rational [2^-52];
    - a Python [int] is a [Z], a [str] a [string], a list a [list];
    - a raised exception is the [Raise] alternative of [result];
    - an object that a function mutates is threaded through the function:
      the function returns the new content next to its result;
    - the file system is the finite set of the paths that exist. *)

From Stdlib Require Import Ascii String QArith Qround Lqa.
From stdpp Require Import base tactics option list sorting gmap strings pretty.

Local Open Scope Z_scope.

(** ** Exceptions and results *)

Inductive exn : Type :=
  | ValueError (msg : string)
  | ZeroDivisionError
  | TypeError
  | IndexError
  | RecursionError.

Inductive result (A : Type) : Type :=
  | Ok (a : A)
  | Raise (e : exn).

Arguments Ok {A} a.
Arguments Raise {A} e.

(** Sequencing: [x ← r; k] runs [k] on the value of [r] and lets an
    exception of [r] pass. *)
#[export] Instance result_ret : MRet result := fun _ a => Ok a.

#[export] Instance result_bind : MBind result := fun _ _ k r =>
  match r with
  | Ok a => k a
  | Raise e => Raise e
  end.

(** [returns r v]: the call whose result is [r] returns the number [v]. *)
Definition returns (r : result Q) (v : Q) : Prop :=
  match r with
  | Ok a => (a == v)%Q
  | Raise _ => False
  end.

(** The message of a raised [ValueError], if that is what [r] is. *)
Definition value_error_of {A : Type} (r : result A) : option string :=
  match r with
  | Raise (ValueError msg) => Some msg
  | _ => None
  end.

(** ** Python primitives used by the helpers *)

(** [a < b] on floats. *)
Definition Qlt_bool (a b : Q) : bool := negb (Qle_bool b a).

(** [a / b] on floats: Python raises on a zero divisor. *)
Definition py_truediv (a b : Q) : result Q :=
  if Qeq_bool b 0 then Raise ZeroDivisionError else Ok (a / b)%Q.

(** [round(x)] of a float: the nearest integer, a tie going to the even one. *)
Definition py_round (x : Q) : Z :=
  let f := Qfloor x in
  match ((x - inject_Z f) ?= (1 # 2))%Q with
  | Lt => f
  | Gt => f + 1
  | Eq => if Z.even f then f else f + 1
  end.

(** [len(l)] *)
Definition py_len {A : Type} (l : list A) : Z := Z.of_nat (length l).

(** [l[:n]] and [l[n:]]: a negative bound counts from the end, and bounds
    beyond the list are clipped. *)
Definition slice_bound {A : Type} (l : list A) (n : Z) : nat :=
  if n <? 0 then Z.to_nat (py_len l + n) else Z.to_nat n.

Definition slice_to {A : Type} (l : list A) (n : Z) : list A :=
  take (slice_bound l n) l.

Definition slice_from {A : Type} (l : list A) (n : Z) : list A :=
  drop (slice_bound l n) l.

(** [range(n)] *)
Definition py_range (n : Z) : list Z := Z.of_nat <$> seq 0 (Z.to_nat n).

(** [enumerate(l)] *)
Definition enumerate {A : Type} (l : list A) : list (Z * A) :=
  zip (py_range (py_len l)) l.

(** [l[i]]: a negative index counts from the end, and an index outside
    the list raises. *)
Definition getitem {A : Type} (l : list A) (i : Z) : result A :=
  let j := if i <? 0 then py_len l + i else i in
  if j <? 0 then Raise IndexError
  else match l !! Z.to_nat j with
       | Some a => Ok a
       | None => Raise IndexError
       end.

(** [list.sort(key=key, reverse=reverse)]: a stable sort that compares keys
    with [<] only.  [ltb] is the [<] of the keys.  An element is placed in
    front of the first element it may precede, so that elements with equal
    keys keep the order they had, in either direction. *)
Section Sort.
Context {A K : Type}.
Variable key : A -> K.
Variable ltb : K -> K -> bool.
Variable reverse : bool.

Definition may_precede (a b : A) : bool :=
  if reverse then negb (ltb (key a) (key b)) else negb (ltb (key b) (key a)).

Fixpoint sort_insert (a : A) (l : list A) : list A :=
  match l with
  | [] => [a]
  | b :: l' => if may_precede a b then a :: b :: l' else b :: sort_insert a l'
  end.

Definition list_sort (l : list A) : list A := foldr sort_insert [] l.
End Sort.

(** ** convert_to_bool *)

(** The values [convert_to_bool] is applied to. *)
Inductive pyval : Type :=
  | PyNone
  | PyBool (b : bool)
  | PyInt (n : Z)
  | PyFloat (q : Q)
  | PyStr (s : string).

Definition str_is_empty (s : string) : bool :=
  match s with
  | EmptyString => true
  | String _ _ => false
  end.

(** [bool(val)] *)
Definition py_bool (val : pyval) : bool :=
  match val with
  | PyNone => false
  | PyBool b => b
  | PyInt n => negb (n =? 0)
  | PyFloat q => negb (Qeq_bool q 0)
  | PyStr s => negb (str_is_empty s)
  end.

(** [c.lower()] for one character: the letters A to Z move to a to z. *)
Definition ascii_lower (c : ascii) : ascii :=
  let n := nat_of_ascii c in
  if ((65 <=? n) && (n <=? 90))%nat then ascii_of_nat (n + 32) else c.

(** [s.lower()] *)
Fixpoint str_lower (s : string) : string :=
  match s with
  | EmptyString => EmptyString
  | String c s' => String (ascii_lower c) (str_lower s')
  end.

(** [sub in s]: [sub] occurs in [s] as a substring. *)
Fixpoint str_in (sub s : string) : bool :=
  String.prefix sub s ||
  match s with
  | EmptyString => false
  | String _ s' => str_in sub s'
  end.

Definition convert_to_bool (val : pyval) : bool :=
  match val with
  | PyStr s =>
      py_bool val && negb (str_in "f" (str_lower s))
                  && negb (str_in "0" (str_lower s))
  | _ => py_bool val
  end.

(** [c] is one of the characters of [s]: what a string contains, said
    without [lower] and without the substring test. *)
Fixpoint has_char (c : ascii) (s : string) : bool :=
  match s with
  | EmptyString => false
  | String d s' => Ascii.eqb c d || has_char c s'
  end.

(** ** interpolate *)

Definition INTERPOLATION_FUNCS : list string :=
  ["linear"; "cubic"; "inverse_cubic"]%string.

(** [sys.float_info.epsilon] *)
Definition epsilon : Q := 1 # 4503599627370496.

(** [repr(s)] of a string without quotes or escapes, and [str(l)] of a list
    of such strings, as [format] prints them. *)
Definition repr_str (s : string) : string := "'" +:+ s +:+ "'".

Definition str_of_list (l : list string) : string :=
  "[" +:+ String.concat ", " (repr_str <$> l) +:+ "]".

(** The message of the first [raise] of [interpolate]. *)
Definition unsupported_msg (inter_func : string) : string :=
  "unsupported inter_func given of " +:+ inter_func +:+ " must be one of "
  +:+ str_of_list INTERPOLATION_FUNCS.

(** The message of the [raise] that ends the [if]/[elif] chain. *)
Definition unsupported_in_msg (inter_func : string) : string :=
  "unsupported inter_func given of " +:+ inter_func +:+ " in interpolate".

(** The progress of [x_cur] from [x0] to [x1] in the 0-1 range, [x_per]. *)
Definition x_per_of (x_cur x0 x1 : Q) : Q := ((x_cur - x0) / (x1 - x0))%Q.

Section Interpolate.
(** [y0] and [y1] are of any type that has the three operations of the
    last line, [y_per * (y1 - y0) + y0]. *)
Context {Y : Type}.
Variable y_sub : Y -> Y -> Y.
Variable y_scale : Q -> Y -> Y.
Variable y_add : Y -> Y -> Y.
(** [b ** e] of the C library for a float base [b >= 0]. *)
Variable float_pow : Q -> Q -> Q.

(** The curve in (0,0)-(1,1) space.  In [inverse_cubic] a negative base
    with the exponent [1 / 3] makes [**] return a complex number, [y_per]
    is then complex, and its comparison with a float raises. *)
Definition curve (inter_func : string) (x_per : Q) : result Q :=
  if String.eqb inter_func "linear" then Ok x_per
  else if String.eqb inter_func "cubic" then Ok (1 - (1 - x_per) ^ 3)%Q
  else if String.eqb inter_func "inverse_cubic" then
    if Qlt_bool (1 - x_per) 0 then Raise TypeError
    else Ok (1 - float_pow (1 - x_per) (1 / 3))%Q
  else Raise (ValueError (unsupported_in_msg inter_func)).

Definition interpolate (x_cur x0 x1 : Q) (y0 y1 : Y) (inter_func : string)
  : result Y :=
  if negb (bool_decide (inter_func ∈ INTERPOLATION_FUNCS)) then
    Raise (ValueError (unsupported_msg inter_func))
  else
    x_per ← py_truediv (x_cur - x0) (x1 - x0);
    y_per ← curve inter_func x_per;
    if Qle_bool y_per (0 + epsilon) then Ok y0
    else if Qle_bool (1 - epsilon) y_per then Ok y1
    else Ok (y_add (y_scale y_per (y_sub y1 y0)) y0).
End Interpolate.

(** [interpolate] on floats [y0], [y1]. *)
Definition interpolate_float (float_pow : Q -> Q -> Q) :=
  interpolate Qminus Qmult Qplus float_pow.

(** ** bucket_iterable *)

Section Bucket.
Context {A K : Type}.
(** [sort_key] and the [<] of its values; [sort_key=None] is the identity. *)
Variable sort_key : A -> K.
Variable ltb : K -> K -> bool.

(** One turn of [for bucket in range(num_buckets)] on the pair of
    [val_list] and [bucketed_values]. *)
Definition bucket_step (num_buckets buckets_count : Z)
    (st : list A * list (Z * A)) (bucket : Z) : list A * list (Z * A) :=
  let '(val_list, bucketed_values) := st in
  let add_vals :=
    if bucket <? num_buckets - 1 then slice_to val_list buckets_count
    else val_list in
  let val_list :=
    if bucket <? num_buckets - 1 then slice_from val_list buckets_count
    else [] in
  (val_list, bucketed_values ++ (pair bucket <$> add_vals)).

Definition bucket_iterable (val : list A) (num_buckets : Z)
    (edge_percent : Q) (sort_highest : bool) : result (list (Z * A)) :=
  let val_list := list_sort sort_key ltb sort_highest val in
  let bucketed_values := [] in
  let edge_count := py_round (edge_percent * inject_Z (py_len val_list)) in
  let '(bucketed_values, val_list) :=
    if 0 <? edge_count then
      (bucketed_values ++ (pair (-1) <$> slice_to val_list edge_count),
       slice_from val_list edge_count)
    else (bucketed_values, val_list) in
  share ← py_truediv (inject_Z (py_len val_list)) (inject_Z num_buckets);
  let buckets_count := py_round share in
  Ok (snd (foldl (bucket_step num_buckets buckets_count)
                 (val_list, bucketed_values) (py_range num_buckets))).
End Bucket.

(** The number of pairs of [l] that carry the bucket index [b]. *)
Definition bucket_size {A : Type} (b : Z) (l : list (Z * A)) : nat :=
  length (filter (fun p => p.1 = b) l).

(** ** interpolated_integral *)

(** One turn of the loop over [enumerate(measurements)]. *)
Definition integral_step (measurements : list (Q * Q)) (acc : result Q)
    (item : Z * (Q * Q)) : result Q :=
  integral ← acc;
  let '(index, (x_val, y_val)) := item in
  if py_len measurements - 1 <=? index then Ok integral
  else
    '(x_next, y_next) ← getitem measurements (index + 1);
    let x_dist := (x_next - x_val)%Q in
    let area := (y_val * x_dist + (y_next - y_val) * x_dist / 2)%Q in
    Ok (integral + area)%Q.

(** The list object [measurements] belongs to the caller: the function
    returns its content after the call next to the result. *)
Definition interpolated_integral (measurements : list (Q * Q))
  : result Q * list (Q * Q) :=
  if py_len measurements <? 1 then (Ok 0%Q, measurements)
  else if py_len measurements =? 1 then
    (m ← getitem measurements 0; Ok m.2, measurements)
  else
    let measurements := list_sort fst Qlt_bool false measurements in
    let integral := Ok 0%Q in
    (foldl (integral_step measurements) integral (enumerate measurements),
     measurements).

(** The sum of the trapezoid areas [(y_i + y_{i+1}) / 2 * (x_{i+1} - x_i)]
    between the consecutive points of a list. *)
Fixpoint trapezoid_sum (l : list (Q * Q)) : Q :=
  match l with
  | [] => 0
  | p :: l' =>
      match l' with
      | [] => 0
      | q :: _ => ((p.2 + q.2) / 2 * (q.1 - p.1) + trapezoid_sum l')%Q
      end
  end.

(** ** create_unique_dir *)

(** [s] filled with zeros on the left up to the width [w]. *)
Definition zero_fill (w : nat) (s : string) : string :=
  String.concat EmptyString (replicate (w - String.length s) "0"%string) +:+ s.

(** ["{:04d}".format(n)]: the sign counts in the width. *)
Definition format_04d (n : Z) : string :=
  if n <? 0 then "-" +:+ zero_fill 3 (pretty (- n)) else zero_fill 4 (pretty n).

Section FileSystem.
(** [clean_path], [os.path.abspath(os.path.expanduser(path))], depends on
    the home and working directories of the process. *)
Variable clean_path : string -> string.

Definition check_path_of (path : string) (check_number : Z) : string :=
  clean_path (path +:+ "-" +:+ format_04d check_number).

(** [os.path.exists] *)
Definition path_exists (fs : gset string) (path : string) : bool :=
  bool_decide (path ∈ fs).

(** [depth] is the number of nested calls the interpreter still allows,
    [fs] the file system; the function returns the file system after the
    call next to its result. *)
Fixpoint create_unique_dir (depth : nat) (path : string) (check_number : Z)
    (fs : gset string) : result string * gset string :=
  match depth with
  | O => (Raise RecursionError, fs)
  | S depth =>
      let check_path := check_path_of path check_number in
      if negb (path_exists fs check_path) then (Ok check_path, fs)
      else create_unique_dir depth path (check_number + 1) fs
  end.

(** Two calls in succession, with the default [check_number]. *)
Definition create_unique_dir_twice (depth : nat) (path : string)
    (fs : gset string) : result string * result string * gset string :=
  let '(first, fs) := create_unique_dir depth path 0 fs in
  let '(second, fs) := create_unique_dir depth path 0 fs in
  (first, second, fs).
End FileSystem.

(** ** flatten_iterable *)

(** A value is either not iterated by [flatten_iterable], which is the case
    of a [str] too, or an iterable, given by its items in order. *)
#[local] Set Warnings "-register-all".
Inductive pyobj : Type :=
  | Atom (v : pyval)
  | Iter (items : list pyobj).

(** What one turn of the loop of [_flatten_gen] yields for the element
    [el]: the element itself, or all that [_flatten_gen(el)] yields. *)
Fixpoint flatten_el (el : pyobj) : list pyval :=
  match el with
  | Iter items => foldr (fun el yielded => flatten_el el ++ yielded) [] items
  | Atom v => [v]
  end.

(** [_flatten_gen(_li)]: the values in the order in which they are yielded. *)
Definition flatten_gen (li : list pyobj) : list pyval :=
  foldr (fun el yielded => flatten_el el ++ yielded) [] li.

Definition flatten_iterable (li : list pyobj) : list pyval := flatten_gen li.

(** ** validate_str_iterable *)

Definition ALL_TOKEN : string := "__ALL__".

(** [c.upper()] for one character: the letters a to z move to A to Z. *)
Definition ascii_upper (c : ascii) : ascii :=
  let n := nat_of_ascii c in
  if ((97 <=? n) && (n <=? 122))%nat then ascii_of_nat (n - 32) else c.

(** [s.upper()] *)
Fixpoint str_upper (s : string) : string :=
  match s with
  | EmptyString => EmptyString
  | String c s' => String (ascii_upper c) (str_upper s')
  end.

(** What [validate_str_iterable] returns: a string or a list. *)
Inductive validated : Type :=
  | ValidStr (s : string)
  | ValidList (l : list pyval).

Section Validate.
(** [str(x)] of a float, as [format] prints it. *)
Variable float_str : Q -> string.

(** [str(val)] of a value that is neither a string nor an iterable. *)
Definition py_str (val : pyval) : string :=
  match val with
  | PyNone => "None"
  | PyBool b => if b then "True" else "False"
  | PyInt n => pretty n
  | PyFloat q => float_str q
  | PyStr s => s
  end.

Definition validate_str_iterable (val : pyobj) (error_desc : string)
  : result validated :=
  match val with
  | Atom (PyStr s) =>
      if negb (String.eqb (str_upper s) ALL_TOKEN) then
        Raise (ValueError ("unsupported string (" +:+ s +:+ ") given in "
                           +:+ error_desc))
      else Ok (ValidStr (str_upper s))
  | Iter items => Ok (ValidList (flatten_iterable items))
  | Atom v =>
      Raise (ValueError ("unsupported type (" +:+ py_str v +:+ ") given in "
                         +:+ error_desc))
  end.
End Validate.

(** ** create_dirs *)

(** [errno.EEXIST] *)
Definition EEXIST : Z := 17.

Section MakeDirs.
Variable clean_path : string -> string.
(** The directories above a path, which [os.makedirs] creates as well. *)
Variable parents : string -> gset string.

(** [os.makedirs(path)] on the file system of existing paths: it fails
    with [EEXIST] when the path exists, the one failure this file system
    knows, and creates the path and the directories above it otherwise.
    The result is the [errno] of the [OSError] raised, if any. *)
Definition os_makedirs (path : string) (fs : gset string)
  : option Z * gset string :=
  if path_exists fs path then (Some EEXIST, fs)
  else (None, fs ∪ {[path]} ∪ parents path).

(** The result is the [errno] of the [OSError] that is raised again, if
    any, next to the file system after the call. *)
Definition create_dirs (path : string) (fs : gset string)
  : option Z * gset string :=
  let path := clean_path path in
  match os_makedirs path fs with
  | (Some errno, fs) => if errno =? EEXIST then (None, fs) else (Some errno, fs)
  | (None, fs) => (None, fs)
  end.
End MakeDirs.

(** * Properties *)

(** ** Comparisons of floats *)

Lemma Qlt_bool_iff (a b : Q) : Qlt_bool a b = true <-> (a < b)%Q.
Proof.
  unfold Qlt_bool. rewrite negb_true_iff, <- not_true_iff_false, Qle_bool_iff.
  split; [apply Qnot_le_lt | apply Qlt_not_le].
Qed.

Lemma Qle_bool_false (a b : Q) : Qle_bool a b = false <-> (b < a)%Q.
Proof.
  rewrite <- not_true_iff_false, Qle_bool_iff.
  split; [apply Qnot_le_lt | apply Qlt_not_le].
Qed.

Lemma Qeq_bool_false (a b : Q) : Qeq_bool a b = false <-> ~ (a == b)%Q.
Proof. by rewrite <- not_true_iff_false, Qeq_bool_iff. Qed.

Lemma py_truediv_ok (a b : Q) :
  ~ (b == 0)%Q -> py_truediv a b = Ok (a / b)%Q.
Proof.
  intros Hb. unfold py_truediv.
  by apply Qeq_bool_false in Hb as ->.
Qed.

Lemma py_truediv_zero (a b : Q) :
  (b == 0)%Q -> py_truediv a b = Raise ZeroDivisionError.
Proof.
  intros Hb. unfold py_truediv.
  by apply Qeq_bool_iff in Hb as ->.
Qed.

Lemma Qminus_eq_0 (a b : Q) : (a - b == 0)%Q <-> (a == b)%Q.
Proof. split; intros H; lra. Qed.

Lemma epsilon_bounds : (0 < epsilon)%Q /\ (epsilon < 1 - epsilon)%Q.
Proof. split; reflexivity. Qed.

(** ** convert_to_bool *)

Lemma has_char_In (c : ascii) (s : string) :
  has_char c s = true <-> In c (list_ascii_of_string s).
Proof.
  induction s as [|d s IH]; simpl.
  - split; [discriminate | tauto].
  - rewrite orb_true_iff, IH, Ascii.eqb_eq. intuition congruence.
Qed.

(** For a single character the substring test is the membership test. *)
Lemma str_in_char (c : ascii) (s : string) :
  str_in (String c EmptyString) s = has_char c s.
Proof.
  induction s as [|d s IH]; simpl; [done|].
  rewrite IH. f_equal.
  destruct (Ascii.ascii_dec c d) as [->|Hne].
  - by rewrite Ascii.eqb_refl; destruct s.
  - symmetry. by apply Ascii.eqb_neq.
Qed.

Lemma ascii_lower_f (d : ascii) :
  Ascii.eqb "f" (ascii_lower d) = Ascii.eqb "f" d || Ascii.eqb "F" d.
Proof. by destruct d as [[] [] [] [] [] [] [] []]. Qed.

Lemma ascii_lower_0 (d : ascii) :
  Ascii.eqb "0" (ascii_lower d) = Ascii.eqb "0" d.
Proof. by destruct d as [[] [] [] [] [] [] [] []]. Qed.

Lemma has_char_lower_f (s : string) :
  has_char "f" (str_lower s) = has_char "f" s || has_char "F" s.
Proof.
  induction s as [|d s IH]; cbn [has_char str_lower]; [done|].
  rewrite IH, ascii_lower_f.
  by destruct (Ascii.eqb "f" d), (Ascii.eqb "F" d), (has_char "f" s).
Qed.

Lemma has_char_lower_0 (s : string) :
  has_char "0" (str_lower s) = has_char "0" s.
Proof.
  induction s as [|d s IH]; cbn [has_char str_lower]; [done|].
  by rewrite IH, ascii_lower_0.
Qed.

(** C10: [convert_to_bool] of a string is False exactly when the string is
    empty or has one of the characters f, F, 0, and True for every other
    string; so "off", "10" and "f-anything" give False and "no" gives True. *)
Theorem convert_to_bool_str :
  (forall s : string,
     convert_to_bool (PyStr s)
     = negb (str_is_empty s || has_char "f" s || has_char "F" s
             || has_char "0" s))
  /\ convert_to_bool (PyStr "off") = false
  /\ convert_to_bool (PyStr "10") = false
  /\ convert_to_bool (PyStr "f-anything") = false
  /\ convert_to_bool (PyStr "false") = false
  /\ convert_to_bool (PyStr "0") = false
  /\ convert_to_bool (PyStr "no") = true.
Proof.
  split; [|by vm_compute].
  intros s. unfold convert_to_bool, py_bool.
  rewrite !str_in_char, has_char_lower_f, has_char_lower_0.
  by destruct (str_is_empty s), (has_char "f" s), (has_char "F" s),
    (has_char "0" s).
Qed.

(** ** interpolate *)

Section InterpolateProps.
Context {Y : Type}.
Variable y_sub : Y -> Y -> Y.
Variable y_scale : Q -> Y -> Y.
Variable y_add : Y -> Y -> Y.
Variable float_pow : Q -> Q -> Q.

Abbreviation interp := (interpolate y_sub y_scale y_add float_pow).

Lemma supported_cases (inter_func : string) :
  inter_func ∈ INTERPOLATION_FUNCS <->
  inter_func = "linear"%string \/ inter_func = "cubic"%string
  \/ inter_func = "inverse_cubic"%string.
Proof.
  unfold INTERPOLATION_FUNCS. rewrite !elem_of_cons, elem_of_nil. tauto.
Qed.

(** The [raise] that ends the [if]/[elif] chain is never reached from
    [interpolate]: a supported name takes one of the branches. *)
Lemma curve_supported (inter_func : string) (x_per : Q) :
  inter_func ∈ INTERPOLATION_FUNCS ->
  value_error_of (curve float_pow inter_func x_per) = None.
Proof.
  intros [-> | [-> | ->]]%supported_cases; unfold curve; simpl; try done.
  by destruct (Qlt_bool _ _).
Qed.


(** With [x1 != x0] and a supported name, [interpolate] is the clamp of
    the value of the curve. *)
Lemma interpolate_unfold (x_cur x0 x1 : Q) (y0 y1 : Y) (inter_func : string) :
  inter_func ∈ INTERPOLATION_FUNCS -> ~ (x1 == x0)%Q ->
  interp x_cur x0 x1 y0 y1 inter_func
  = (y_per ← curve float_pow inter_func (x_per_of x_cur x0 x1);
     if Qle_bool y_per (0 + epsilon) then Ok y0
     else if Qle_bool (1 - epsilon) y_per then Ok y1
     else Ok (y_add (y_scale y_per (y_sub y1 y0)) y0)).
Proof.
  intros Hin Hne. unfold interpolate.
  rewrite bool_decide_true by done. simpl.
  rewrite py_truediv_ok; [done|].
  by rewrite Qminus_eq_0.
Qed.





Lemma curve_no_zero_division (inter_func : string) (x_per : Q) :
  curve float_pow inter_func x_per <> Raise ZeroDivisionError.
Proof.
  unfold curve.
  repeat (match goal with |- context [if ?b then _ else _] => destruct b end);
    discriminate.
Qed.

(** C6: [interpolate] raises the unsupported-function error exactly when
    [inter_func] is not one of linear, cubic, inverse_cubic; the message
    names the given value and the list of the allowed names; for a
    supported name no such error is raised, whatever the other arguments. *)
Theorem interpolate_unsupported (x_cur x0 x1 : Q) (y0 y1 : Y)
    (inter_func : string) :
  ((exists msg, interp x_cur x0 x1 y0 y1 inter_func = Raise (ValueError msg))
   <-> inter_func ∉ INTERPOLATION_FUNCS)
  /\ value_error_of (interp x_cur x0 x1 y0 y1 inter_func)
     = if bool_decide (inter_func ∈ ["linear"; "cubic"; "inverse_cubic"]%string)
       then None
       else Some ("unsupported inter_func given of " +:+ inter_func
                  +:+ " must be one of ['linear', 'cubic', 'inverse_cubic']").
Proof.
  assert (value_error_of (interp x_cur x0 x1 y0 y1 inter_func)
          = if bool_decide (inter_func ∈ INTERPOLATION_FUNCS) then None
            else Some (unsupported_msg inter_func)) as Hmsg.
  { unfold interpolate. case_bool_decide as Hin; simpl; [|done].
    unfold py_truediv. destruct (Qeq_bool _ _); simpl; [done|].
    pose proof (curve_supported inter_func ((x_cur - x0) / (x1 - x0))%Q Hin) as Hc.
    destruct (curve _ _ _) as [y_per|e]; simpl; [|done].
    by repeat (match goal with |- context [if ?b then _ else _] => destruct b end). }
  split; [|exact Hmsg].
  split.
  - intros [msg Hr] Hin. rewrite Hr, bool_decide_true in Hmsg by done.
    discriminate.
  - intros Hin. rewrite bool_decide_false in Hmsg by done.
    destruct (interp _ _ _ _ _ _) as [|[]]; try discriminate. eauto.
Qed.

(** C8: for a supported curve name, [interpolate] divides by zero exactly
    when [x1 == x0]: with [x1 != x0] no division by zero occurs, and with
    [x1 == x0] the call raises [ZeroDivisionError]. *)
Theorem interpolate_zero_division (x_cur x0 x1 : Q) (y0 y1 : Y)
    (inter_func : string) (Hin : inter_func ∈ INTERPOLATION_FUNCS) :
  interp x_cur x0 x1 y0 y1 inter_func = Raise ZeroDivisionError
  <-> (x1 == x0)%Q.
Proof.
  split.
  - intros Hr. destruct (Qeq_dec x1 x0) as [|Hne]; [done|exfalso].
    rewrite interpolate_unfold in Hr by done.
    pose proof (curve_no_zero_division inter_func (x_per_of x_cur x0 x1)) as Hc.
    destruct (curve _ _ _) as [y_per|e]; simpl in Hr; [|congruence].
    by repeat (match type of Hr with context [if ?b then _ else _] =>
                 destruct b end).
  - intros Heq. unfold interpolate. rewrite bool_decide_true by done. simpl.
    rewrite py_truediv_zero; [done|]. by apply Qminus_eq_0.
Qed.
(** What else can happen with [x1 != x0]: the linear and the cubic curve
    always give a value; the inverse cubic curve gives one up to [x1], and
    beyond [x1] the comparison of the complex [y_per] raises. *)
Lemma interpolate_returns (x_cur x0 x1 : Q) (y0 y1 : Y) (inter_func : string) :
  ~ (x1 == x0)%Q ->
  inter_func = "linear"%string \/ inter_func = "cubic"%string ->
  exists y, interp x_cur x0 x1 y0 y1 inter_func = Ok y.
Proof.
  intros Hne Hf.
  rewrite interpolate_unfold; [|apply supported_cases; tauto|done].
  destruct Hf as [-> | ->]; unfold curve; simpl;
    repeat (match goal with |- context [if ?b then _ else _] => destruct b end);
    eauto.
Qed.

End InterpolateProps.



Lemma interpolate_zero_division_witness :
  "cubic"%string ∈ INTERPOLATION_FUNCS
  /\ (interpolate_float (fun _ _ => 0%Q) (1 # 2) 1 1 5 7 "cubic"
      = Raise ZeroDivisionError <-> (1 == 1)%Q).
Proof.
  assert ("cubic"%string ∈ INTERPOLATION_FUNCS) as Hin.
  { unfold INTERPOLATION_FUNCS. apply list_elem_of_further, list_elem_of_here. }
  split; [exact Hin|].
  exact (interpolate_zero_division Qminus Qmult Qplus (fun _ _ => 0%Q)
           (1 # 2)%Q 1%Q 1%Q 5%Q 7%Q "cubic" Hin).
Defined.

(** ** list.sort *)

Section SortProps.
Context {A K : Type}.
Variable key : A -> K.
Variable ltb : K -> K -> bool.
Variable reverse : bool.

Abbreviation precedes := (fun a b => may_precede key ltb reverse a b = true).
Abbreviation insert_sorted := (sort_insert key ltb reverse).
Abbreviation sorted := (list_sort key ltb reverse).

Lemma sort_insert_Permutation (a : A) (l : list A) :
  insert_sorted a l ≡ₚ a :: l.
Proof.
  induction l as [|b l IH]; simpl; [done|].
  destruct (may_precede _ _ _ a b); [done|].
  rewrite IH. apply Permutation_swap.
Qed.

Lemma list_sort_Permutation (l : list A) : sorted l ≡ₚ l.
Proof.
  induction l as [|a l IH]; simpl; [done|].
  by rewrite sort_insert_Permutation, IH.
Qed.

Lemma list_sort_length (l : list A) : length (sorted l) = length l.
Proof. by rewrite list_sort_Permutation. Qed.

(** A list that is in order already is left as it is. *)
Lemma list_sort_sorted (l : list A) :
  StronglySorted precedes l -> sorted l = l.
Proof.
  induction 1 as [|a l Hl IH Ha]; simpl; [done|].
  rewrite IH. destruct Ha as [|b l' Hab _]; simpl; [done|].
  by rewrite Hab.
Qed.

(** The sort is stable: the elements of a class [P] whose members may
    precede each other, such as the elements of one key, come out in the
    order they had in the input. *)
Lemma sort_insert_filter (P : A -> Prop) `{!forall a, Decision (P a)}
    (a : A) (l : list A) :
  (forall b c, P b -> P c -> precedes b c) ->
  filter P (insert_sorted a l) = filter P (a :: l).
Proof.
  intros Hclass. induction l as [|b l IH]; simpl; [done|].
  destruct (may_precede _ _ _ a b) eqn:Hab; [done|].
  rewrite filter_cons, IH, !filter_cons.
  destruct (decide (P a)), (decide (P b)); try done.
  rewrite Hclass in Hab by done. discriminate.
Qed.

Lemma list_sort_stable (P : A -> Prop) `{!forall a, Decision (P a)}
    (l : list A) :
  (forall b c, P b -> P c -> precedes b c) ->
  filter P (sorted l) = filter P l.
Proof.
  intros Hclass. induction l as [|a l IH]; simpl; [done|].
  by rewrite sort_insert_filter, !filter_cons, IH.
Qed.

(** When [<] on the keys is a strict total order up to equal keys, the
    result is in order. *)
Hypothesis precedes_total :
  forall a b, may_precede key ltb reverse a b = false -> precedes b a.
Hypothesis precedes_trans :
  forall a b c, precedes a b -> precedes b c -> precedes a c.

Lemma sort_insert_StronglySorted (a : A) (l : list A) :
  StronglySorted precedes l -> StronglySorted precedes (insert_sorted a l).
Proof.
  induction 1 as [|b l Hl IH Hb]; simpl.
  - repeat constructor.
  - destruct (may_precede _ _ _ a b) eqn:Hab.
    + constructor; [by constructor|].
      constructor; [done|].
      eapply Forall_impl; [exact Hb|]. intros c Hbc. by eapply precedes_trans.
    + constructor; [done|].
      rewrite sort_insert_Permutation. constructor; [|done].
      by apply precedes_total.
Qed.

Lemma list_sort_StronglySorted (l : list A) : StronglySorted precedes (sorted l).
Proof.
  induction l as [|a l IH]; simpl; [constructor|].
  by apply sort_insert_StronglySorted.
Qed.
End SortProps.

(** Ascending order of the first components of pairs of floats. *)
Lemma precedes_fst_Qle (p q : Q * Q) :
  may_precede fst Qlt_bool false p q = true <-> (p.1 <= q.1)%Q.
Proof.
  unfold may_precede. rewrite negb_true_iff, <- not_true_iff_false, Qlt_bool_iff.
  split; [apply Qnot_lt_le | apply Qle_not_lt].
Qed.

Lemma StronglySorted_iff {A : Type} (R1 R2 : A -> A -> Prop) (l : list A) :
  (forall a b, R1 a b <-> R2 a b) ->
  StronglySorted R1 l <-> StronglySorted R2 l.
Proof.
  intros HR. split; induction 1 as [|a l Hl IH Ha]; constructor; try done.
  all: eapply Forall_impl; [exact Ha|]; intros b; by apply HR.
Qed.

Lemma sort_by_x_StronglySorted (l : list (Q * Q)) :
  StronglySorted (fun p q => (p.1 <= q.1)%Q) (list_sort fst Qlt_bool false l).
Proof.
  eapply StronglySorted_iff; [intros a b; symmetry; apply precedes_fst_Qle|].
  apply list_sort_StronglySorted.
  - intros a b Hab. apply precedes_fst_Qle.
    apply not_true_iff_false in Hab. rewrite precedes_fst_Qle in Hab.
    apply Qlt_le_weak, Qnot_le_lt, Hab.
  - intros a b c. rewrite !precedes_fst_Qle. apply Qle_trans.
Qed.

(** ** bucket_iterable *)

Lemma slice_to_from {A : Type} (l : list A) (n : Z) :
  slice_to l n ++ slice_from l n = l.
Proof. apply take_drop. Qed.

Lemma py_range_cons (n : Z) :
  0 < n -> py_range n = (Z.of_nat <$> seq 0 (S (Z.to_nat (n - 1)))).
Proof.
  intros Hn. unfold py_range. do 2 f_equal. lia.
Qed.

Lemma bucket_size_app {A : Type} (b : Z) (l1 l2 : list (Z * A)) :
  bucket_size b (l1 ++ l2) = (bucket_size b l1 + bucket_size b l2)%nat.
Proof. unfold bucket_size. by rewrite filter_app, length_app. Qed.

Lemma bucket_size_pair {A : Type} (b b' : Z) (l : list A) :
  bucket_size b (pair b' <$> l) = if decide (b' = b) then length l else 0%nat.
Proof.
  unfold bucket_size. induction l as [|a l IH]; [by case_decide|].
  rewrite fmap_cons, filter_cons.
  repeat case_decide; simpl in *; congruence.
Qed.

Section BucketProps.
Context {A K : Type}.
Variable sort_key : A -> K.
Variable ltb : K -> K -> bool.

Abbreviation step := (@bucket_step A).

(** The loop hands out all of [val_list]: while [bucket < num_buckets - 1]
    a slice goes to the bucket and the rest stays, and the last bucket takes
    what is left. *)
Lemma bucket_loop_values (num_buckets buckets_count : Z) (k i : nat)
    (val_list : list A) (bucketed_values : list (Z * A)) :
  Z.of_nat (i + S k) = num_buckets ->
  (foldl (step num_buckets buckets_count) (val_list, bucketed_values)
         (Z.of_nat <$> seq i (S k))).2.*2
  = bucketed_values.*2 ++ val_list.
Proof.
  revert i val_list bucketed_values.
  induction k as [|k IH]; intros i val_list bucketed_values Hnb.
  - simpl. rewrite (proj2 (Z.ltb_ge _ _)) by lia.
    rewrite fmap_app, <- list_fmap_compose. simpl. by rewrite list_fmap_id.
  - change (seq i (S (S k))) with (i :: seq (S i) (S k)).
    rewrite fmap_cons. cbn [foldl]. unfold bucket_step at 2.
    rewrite (proj2 (Z.ltb_lt _ _)) by lia.
    rewrite IH by lia.
    rewrite fmap_app, <- list_fmap_compose. simpl. rewrite list_fmap_id.
    by rewrite <- app_assoc, slice_to_from.
Qed.

(** C3: with [num_buckets >= 1], [bucket_iterable] returns a list, and the
    values of its pairs are the sorted input, in that order: every element
    of the input is the value of exactly one pair. *)
Theorem bucket_iterable_partition (val : list A) (num_buckets : Z)
    (edge_percent : Q) (sort_highest : bool) (Hnb : 1 <= num_buckets) :
  exists bucketed_values,
    bucket_iterable sort_key ltb val num_buckets edge_percent sort_highest
    = Ok bucketed_values
    /\ bucketed_values.*2 = list_sort sort_key ltb sort_highest val
    /\ bucketed_values.*2 ≡ₚ val
    /\ length bucketed_values = length val.
Proof.
  unfold bucket_iterable.
  set (sorted_val := list_sort sort_key ltb sort_highest val).
  set (edge_count := py_round _).
  set (st := if 0 <? edge_count then _ else _).
  assert (st.1.*2 ++ st.2 = sorted_val) as Hst.
  { unfold st. destruct (0 <? edge_count); simpl; [|done].
    rewrite <- list_fmap_compose. simpl.
    by rewrite list_fmap_id, slice_to_from. }
  destruct st as [edge rest]. simpl in Hst.
  rewrite py_truediv_ok.
  2: { unfold Qeq. simpl. lia. }
  simpl. eexists. split; [done|].
  assert (forall l : list (Z * A), l.*2 = sorted_val ->
    l.*2 = sorted_val /\ l.*2 ≡ₚ val /\ length l = length val) as Hall.
  { intros l Hl. split; [done|].
    split; [rewrite Hl; apply list_sort_Permutation|].
    rewrite <- (length_fmap snd), Hl. apply list_sort_length. }
  apply Hall.
  rewrite py_range_cons by lia.
  rewrite bucket_loop_values by lia. done.
Qed.
(** The run on 100 elements with [edge_percent=0.05] and [num_buckets=3]:
    5 elements go to the edge bucket, [round(95 / 3.0)] is 32, and the
    buckets 0, 1, 2 take 32, 32 and what is left. *)
Lemma bucket_iterable_100_run (val : list A) (sort_highest : bool) :
  length val = 100%nat ->
  bucket_iterable sort_key ltb val 3 0.05 sort_highest
  = Ok (let val_list := list_sort sort_key ltb sort_highest val in
        (pair (-1) <$> take 5 val_list)
        ++ (pair 0 <$> take 32 (drop 5 val_list))
        ++ (pair 1 <$> take 32 (drop 32 (drop 5 val_list)))
        ++ (pair 2 <$> drop 32 (drop 32 (drop 5 val_list)))).
Proof.
  intros Hlen. unfold bucket_iterable.
  pose proof (list_sort_length sort_key ltb sort_highest val) as Hs.
  rewrite Hlen in Hs.
  set (val_list := list_sort sort_key ltb sort_highest val) in *.
  assert (py_len val_list = 100) as Hpl by (unfold py_len; lia).
  cbv zeta. rewrite !Hpl.
  assert (py_round (0.05 * inject_Z 100) = 5) as -> by (vm_compute; reflexivity).
  change (0 <? 5) with true. cbv iota beta.
  change (slice_to val_list 5) with (take 5 val_list).
  change (slice_from val_list 5) with (drop 5 val_list).
  assert (py_len (drop 5 val_list) = 95) as ->
    by (unfold py_len; rewrite length_drop; lia).
  assert (py_truediv (inject_Z 95) (inject_Z 3) = Ok (95 # 3)) as ->
    by reflexivity.
  change (Ok (95 # 3) ≫= ?f) with (f (95 # 3)). cbv beta.
  assert (py_round (95 # 3) = 32) as -> by (vm_compute; reflexivity).
  change (py_range 3) with [0; 1; 2].
  cbn [foldl]. unfold bucket_step.
  change (0 <? 3 - 1) with true.
  change (1 <? 3 - 1) with true.
  change (2 <? 3 - 1) with false.
  cbv iota beta.
  repeat change (slice_to ?l 32) with (take 32 l).
  repeat change (slice_from ?l 32) with (drop 32 l).
  cbn [snd app]. by rewrite <- !app_assoc.
Qed.

(** C5: on a list of 100 elements, with [edge_percent=0.05] and
    [num_buckets=3], [bucket_iterable] returns 100 pairs; 5 of them carry
    the bucket index -1, and the other 95 carry the indices 0, 1 and 2, in
    groups of 32, 32 and 31. *)
Theorem bucket_iterable_100 (val : list A) (sort_highest : bool)
    (Hlen : length val = 100%nat) :
  exists bucketed_values,
    bucket_iterable sort_key ltb val 3 0.05 sort_highest = Ok bucketed_values
    /\ length bucketed_values = 100%nat
    /\ bucket_size (-1) bucketed_values = 5%nat
    /\ (bucket_size 0 bucketed_values + bucket_size 1 bucketed_values
        + bucket_size 2 bucketed_values = 95)%nat
    /\ bucket_size 0 bucketed_values = 32%nat
    /\ bucket_size 1 bucketed_values = 32%nat
    /\ bucket_size 2 bucketed_values = 31%nat.
Proof.
  eexists. split; [apply bucket_iterable_100_run; exact Hlen|]. cbv zeta.
  pose proof (list_sort_length sort_key ltb sort_highest val) as Hs.
  rewrite Hlen in Hs.
  set (val_list := list_sort sort_key ltb sort_highest val) in *.
  rewrite !bucket_size_app, !bucket_size_pair, !length_app, !length_fmap.
  rewrite !length_take, !length_drop, Hs.
  repeat split; vm_compute; reflexivity.
Qed.
End BucketProps.

Lemma bucket_iterable_partition_witness :
  1 <= 3
  /\ exists bucketed_values,
       bucket_iterable (fun v : Z => v) Z.ltb [3; 1; 2; 5; 4] 3 0.05 true
       = Ok bucketed_values
       /\ bucketed_values.*2 = list_sort (fun v : Z => v) Z.ltb true [3; 1; 2; 5; 4]
       /\ bucketed_values.*2 ≡ₚ [3; 1; 2; 5; 4]
       /\ length bucketed_values = length [3; 1; 2; 5; 4].
Proof.
  assert (1 <= 3) as Hnb by lia.
  split; [exact Hnb|].
  exact (bucket_iterable_partition (fun v : Z => v) Z.ltb [3; 1; 2; 5; 4] 3
           0.05%Q true Hnb).
Defined.

Lemma bucket_iterable_100_witness :
  length (Z.of_nat <$> seq 0 100) = 100%nat
  /\ exists bucketed_values,
       bucket_iterable (fun v : Z => v) Z.ltb (Z.of_nat <$> seq 0 100) 3 0.05 true
       = Ok bucketed_values
       /\ length bucketed_values = 100%nat
       /\ bucket_size (-1) bucketed_values = 5%nat
       /\ (bucket_size 0 bucketed_values + bucket_size 1 bucketed_values
           + bucket_size 2 bucketed_values = 95)%nat
       /\ bucket_size 0 bucketed_values = 32%nat
       /\ bucket_size 1 bucketed_values = 32%nat
       /\ bucket_size 2 bucketed_values = 31%nat.
Proof.
  assert (length (Z.of_nat <$> seq 0 100) = 100%nat) as Hlen by reflexivity.
  split; [exact Hlen|].
  exact (bucket_iterable_100 (fun v : Z => v) Z.ltb (Z.of_nat <$> seq 0 100)
           true Hlen).
Defined.

(** ** interpolated_integral *)

(** The area the loop adds is the area of the trapezoid. *)
Lemma area_trapezoid (x_val y_val x_next y_next : Q) :
  (y_val * (x_next - x_val) + (y_next - y_val) * (x_next - x_val) / 2
   == (y_val + y_next) / 2 * (x_next - x_val))%Q.
Proof. field. Qed.

Lemma getitem_nat {A : Type} (l : list A) (i : nat) (a : A) :
  l !! i = Some a -> getitem l (Z.of_nat i) = Ok a.
Proof.
  intros Hi. unfold getitem. cbv zeta.
  assert ((Z.of_nat i <? 0) = false) as Hpos by (apply Z.ltb_ge; lia).
  by rewrite !Hpos, Nat2Z.id, Hi.
Qed.

(** The loop from the index [length done] on: what it adds to [integral] is
    the sum of the trapezoids of the points that are left. *)
Lemma integral_loop (done rest : list (Q * Q)) (integral : Q) :
  exists v,
    foldl (integral_step (done ++ rest)) (Ok integral)
          (zip (Z.of_nat <$> seq (length done) (length rest)) rest) = Ok v
    /\ (v == integral + trapezoid_sum rest)%Q.
Proof.
  revert done integral.
  induction rest as [|p rest IH]; intros done integral.
  - exists integral. split; [done|]. simpl. ring.
  - destruct p as [x_val y_val].
    cbn [length seq fmap list_fmap zip zip_with foldl].
    unfold integral_step at 2. cbn [mbind result_bind].
    destruct rest as [|[x_next y_next] rest].
    + rewrite (proj2 (Z.leb_le _ _)).
      2: { unfold py_len. rewrite length_app. simpl. lia. }
      exists integral. split; [done|]. simpl. ring.
    + rewrite (proj2 (Z.leb_gt _ _)).
      2: { unfold py_len. rewrite length_app. simpl. lia. }
      replace (Z.of_nat (length done) + 1) with (Z.of_nat (S (length done)))
        by lia.
      rewrite (getitem_nat _ _ (x_next, y_next)).
      2: { rewrite lookup_app_r by lia.
           by replace (S (length done) - length done)%nat with 1%nat by lia. }
      cbn [mbind result_bind].
      specialize (IH (done ++ [(x_val, y_val)])
                    (integral + (y_val * (x_next - x_val)
                       + (y_next - y_val) * (x_next - x_val) / 2))%Q).
      rewrite <- app_assoc, length_app in IH. simpl in IH.
      replace (length done + 1)%nat with (S (length done)) in IH by lia.
      destruct IH as (v & Hv & Heq). exists v. split; [exact Hv|].
      rewrite Heq. cbn [trapezoid_sum fst snd].
      rewrite area_trapezoid. ring.
Qed.

Lemma interpolated_integral_sorted (measurements : list (Q * Q)) :
  (2 <= length measurements)%nat ->
  interpolated_integral measurements
  = (let measurements := list_sort fst Qlt_bool false measurements in
     (foldl (integral_step measurements) (Ok 0%Q) (enumerate measurements),
      measurements)).
Proof.
  intros Hlen. unfold interpolated_integral.
  rewrite (proj2 (Z.ltb_ge _ _)) by (unfold py_len; lia).
  by rewrite (proj2 (Z.eqb_neq _ _)) by (unfold py_len; lia).
Qed.



(** C7: [interpolated_integral] of the empty list is 0.0, and of a list of
    one measurement [(x, y)] it is [y] itself; on [(5, 3)] that is 3. *)
Theorem interpolated_integral_short :
  (interpolated_integral []).1 = Ok 0%Q
  /\ (forall x y : Q, (interpolated_integral [(x, y)]).1 = Ok y)
  /\ (interpolated_integral [(5, 3)]%Q).1 = Ok 3%Q.
Proof. by repeat split. Qed.

(** A list of fewer than two measurements is left as it is. *)
Lemma interpolated_integral_short_unchanged (measurements : list (Q * Q)) :
  (length measurements < 2)%nat ->
  (interpolated_integral measurements).2 = measurements.
Proof. by destruct measurements as [|? [|? ?]]; simpl; [..|lia]. Qed.

(** C9: on a list of at least two measurements, [interpolated_integral]
    sorts the list of the caller in place: after the call its content is the
    input reordered by x ascending, and it is the content it had before only
    when that was in ascending order of x already. *)
Theorem interpolated_integral_sorts_argument (measurements : list (Q * Q))
    (Hlen : (2 <= length measurements)%nat) :
  let after := (interpolated_integral measurements).2 in
  after = list_sort fst Qlt_bool false measurements
  /\ StronglySorted (fun p q => (p.1 <= q.1)%Q) after
  /\ after ≡ₚ measurements
  /\ (after = measurements
      <-> StronglySorted (fun p q => (p.1 <= q.1)%Q) measurements).
Proof.
  rewrite interpolated_integral_sorted by done. cbv zeta. cbn [snd].
  split; [done|].
  split; [apply sort_by_x_StronglySorted|].
  split; [apply list_sort_Permutation|].
  split.
  - intros <-. apply sort_by_x_StronglySorted.
  - intros Hsorted. apply list_sort_sorted.
    eapply StronglySorted_iff; [apply precedes_fst_Qle|done].
Qed.

Lemma interpolated_integral_sorts_argument_witness :
  (2 <= length [(2, 0); (0, 0); (1, 1)]%Q)%nat
  /\ (interpolated_integral [(2, 0); (0, 0); (1, 1)]%Q).2
     = list_sort fst Qlt_bool false [(2, 0); (0, 0); (1, 1)]%Q.
Proof.
  assert (2 <= length [(2, 0); (0, 0); (1, 1)]%Q)%nat as Hlen by (simpl; lia).
  split; [exact Hlen|].
  exact (proj1 (interpolated_integral_sorts_argument
                  [(2, 0); (0, 0); (1, 1)]%Q Hlen)).
Defined.

(** The list [(2,0), (0,0), (1,1)] of the caller is [(0,0), (1,1), (2,0)]
    after the call. *)
Lemma interpolated_integral_reorders :
  (interpolated_integral [(2, 0); (0, 0); (1, 1)]%Q).2
  = [(0, 0); (1, 1); (2, 0)]%Q.
Proof. reflexivity. Qed.

(** ** create_unique_dir *)

Section FileSystemProps.
Variable clean_path : string -> string.

Abbreviation unique_dir := (create_unique_dir clean_path).

(** The function only asks whether paths exist: the file system after the
    call is the file system before it. *)
Lemma create_unique_dir_fs (depth : nat) (path : string) (check_number : Z)
    (fs : gset string) :
  (unique_dir depth path check_number fs).2 = fs.
Proof.
  revert check_number.
  induction depth as [|depth IH]; intros check_number; simpl; [done|].
  by destruct (path_exists fs _); simpl.
Qed.

(** A returned path does not exist. *)
Lemma create_unique_dir_fresh (depth : nat) (path : string) (check_number : Z)
    (fs : gset string) (p : string) :
  (unique_dir depth path check_number fs).1 = Ok p -> p ∉ fs.
Proof.
  revert check_number.
  induction depth as [|depth IH]; intros check_number; simpl; [done|].
  unfold path_exists. case_bool_decide as Hin; simpl; [by apply IH|].
  by intros [= <-].
Qed.

(** The first free number is found when it is within the depth that is
    left: the numbers before it are taken, one nested call each. *)
Lemma create_unique_dir_finds (k depth : nat) (path : string)
    (check_number : Z) (fs : gset string) :
  (k < depth)%nat ->
  (forall j : nat, (j < k)%nat ->
     check_path_of clean_path path (check_number + Z.of_nat j) ∈ fs) ->
  check_path_of clean_path path (check_number + Z.of_nat k) ∉ fs ->
  unique_dir depth path check_number fs
  = (Ok (check_path_of clean_path path (check_number + Z.of_nat k)), fs).
Proof.
  revert depth check_number.
  induction k as [|k IH]; intros [|depth] check_number Hk Htaken Hfree;
    try lia; cbn [create_unique_dir]; unfold path_exists.
  - replace (check_number + Z.of_nat 0) with check_number in * by lia.
    by rewrite bool_decide_false.
  - rewrite bool_decide_true.
    2: { specialize (Htaken 0%nat).
         replace (check_number + Z.of_nat 0) with check_number in Htaken by lia.
         apply Htaken. lia. }
    cbn [negb]. rewrite (IH depth (check_number + 1)); [|lia| |].
    + do 3 f_equal. lia.
    + intros j Hj. specialize (Htaken (S j)).
      replace (check_number + 1 + Z.of_nat j)
        with (check_number + Z.of_nat (S j)) by lia.
      apply Htaken. lia.
    + by replace (check_number + 1 + Z.of_nat k)
        with (check_number + Z.of_nat (S k)) by lia.
Qed.

(** C4, as amended: two calls in succession on the same base path, with
    nothing changed in the file system in between, give the same result,
    and the file system is as before; a returned path does not exist, and
    a later call returns another path only once that path exists. *)
Theorem create_unique_dir_twice_same (depth : nat) (path : string)
    (fs : gset string) :
  exists r,
    create_unique_dir_twice clean_path depth path fs = (r, r, fs)
    /\ (forall p, r = Ok p ->
          (p ∉ fs)
          /\ (forall fs' : gset string, p ∈ fs' ->
                (unique_dir depth path 0 fs').1 <> Ok p)).
Proof.
  exists (unique_dir depth path 0 fs).1.
  unfold create_unique_dir_twice.
  pose proof (create_unique_dir_fs depth path 0 fs) as Hfs.
  destruct (unique_dir depth path 0 fs) as [r fs1] eqn:Hcall.
  simpl in Hfs. subst fs1. rewrite Hcall. simpl.
  split; [done|].
  intros p ->. split.
  - apply (create_unique_dir_fresh depth path 0). by rewrite Hcall.
  - intros fs' Hin Hcall'. by apply create_unique_dir_fresh in Hcall'.
Qed.
End FileSystemProps.

(** C4, as stated, on an empty file system, where [clean_path] leaves the
    absolute path as it is: both calls return /tmp/run-0000. *)
Lemma create_unique_dir_twice_collides :
  create_unique_dir_twice (fun p => p) 1000 "/tmp/run" ∅
  = (Ok "/tmp/run-0000"%string, Ok "/tmp/run-0000"%string, ∅).
Proof. by vm_compute. Qed.

(** Once /tmp/run-0000 exists, the next call returns /tmp/run-0001. *)
Lemma create_unique_dir_after_creation :
  let fs : gset string := {["/tmp/run-0000"%string]} in
  (create_unique_dir (fun p => p) 1000 "/tmp/run" 0 fs).1
  = Ok "/tmp/run-0001"%string.
Proof. by vm_compute. Qed.

(** * Further properties of the helpers *)

(** ** flatten_iterable *)

Lemma flatten_gen_cons (el : pyobj) (rest : list pyobj) :
  flatten_gen (el :: rest) = flatten_el el ++ flatten_gen rest.
Proof. reflexivity. Qed.

Lemma flatten_el_Iter (items : list pyobj) :
  flatten_el (Iter items) = flatten_gen items.
Proof. reflexivity. Qed.

Lemma flatten_gen_app (l1 l2 : list pyobj) :
  flatten_gen (l1 ++ l2) = flatten_gen l1 ++ flatten_gen l2.
Proof.
  induction l1 as [|el l1 IH]; [done|].
  rewrite <- app_comm_cons, !flatten_gen_cons, IH. apply app_assoc.
Qed.

Lemma flatten_gen_atoms (vs : list pyval) : flatten_gen (Atom <$> vs) = vs.
Proof.
  induction vs as [|v vs IH]; [done|].
  rewrite fmap_cons, flatten_gen_cons, IH. done.
Qed.

(** X1: a list without nested iterables, strings included, is returned as
    it is; so the result of [flatten_iterable] is flat: flattening it again
    gives it back. *)
Theorem flatten_iterable_flat :
  (forall vs : list pyval, flatten_iterable (Atom <$> vs) = vs)
  /\ (forall li : list pyobj,
        flatten_iterable (Atom <$> flatten_iterable li) = flatten_iterable li).
Proof.
  split; [exact flatten_gen_atoms|].
  intros li. apply flatten_gen_atoms.
Qed.

(** X2: the result is the concatenation of what the parts give, in order,
    and the brackets of a nested iterable do not matter: the items of a
    nested iterable come out where the iterable stood (depth first). *)
Theorem flatten_iterable_nesting (before inner after : list pyobj) :
  flatten_iterable (before ++ after)
  = flatten_iterable before ++ flatten_iterable after
  /\ flatten_iterable (before ++ [Iter inner] ++ after)
     = flatten_iterable (before ++ inner ++ after)
  /\ flatten_iterable (before ++ [Iter inner] ++ after)
     = flatten_iterable before ++ flatten_iterable inner
       ++ flatten_iterable after.
Proof.
  unfold flatten_iterable.
  rewrite !flatten_gen_app, flatten_gen_cons, flatten_el_Iter.
  change (flatten_gen []) with (@nil pyval). by rewrite app_nil_r.
Qed.

(** ** validate_str_iterable *)

Lemma ascii_upper_A (c : ascii) :
  ascii_upper c = "A"%char <-> c = "a"%char \/ c = "A"%char.
Proof.
  rewrite <- !Ascii.eqb_eq, <- orb_true_iff.
  by destruct c as [[] [] [] [] [] [] [] []].
Qed.

Lemma ascii_upper_L (c : ascii) :
  ascii_upper c = "L"%char <-> c = "l"%char \/ c = "L"%char.
Proof.
  rewrite <- !Ascii.eqb_eq, <- orb_true_iff.
  by destruct c as [[] [] [] [] [] [] [] []].
Qed.

Lemma ascii_upper_underscore (c : ascii) :
  ascii_upper c = "_"%char <-> c = "_"%char.
Proof.
  rewrite <- !Ascii.eqb_eq.
  by destruct c as [[] [] [] [] [] [] [] []].
Qed.

(** The strings whose upper case is the token: the token spelled with
    letters of either case. *)
Lemma str_upper_ALL (s : string) :
  str_upper s = ALL_TOKEN <->
  exists a l1 l2 : ascii,
    s = String "_" (String "_" (String a (String l1 (String l2
          (String "_" (String "_" EmptyString))))))
    /\ (a = "a"%char \/ a = "A"%char)
    /\ (l1 = "l"%char \/ l1 = "L"%char)
    /\ (l2 = "l"%char \/ l2 = "L"%char).
Proof.
  unfold ALL_TOKEN. split.
  - intros H.
    destruct s as [|c1 [|c2 [|c3 [|c4 [|c5 [|c6 [|c7 [|c8 s]]]]]]]];
      simpl in H; try discriminate H.
    injection H as H1 H2 H3 H4 H5 H6 H7.
    rewrite ascii_upper_underscore in H1, H2, H6, H7. subst.
    rewrite ascii_upper_A in H3. rewrite ascii_upper_L in H4, H5.
    by exists c3, c4, c5.
  - intros (a & l1 & l2 & -> & Ha & Hl1 & Hl2). simpl.
    rewrite <- ascii_upper_A in Ha. rewrite <- ascii_upper_L in Hl1, Hl2.
    by rewrite Ha, Hl1, Hl2.
Qed.

(** X3: of the strings, [validate_str_iterable] accepts the token spelled
    with letters of either case, and nothing else; what it returns is the
    token itself, in upper case; any other string raises a ValueError whose
    message has the string and the description given. *)
Theorem validate_str_iterable_string (float_str : Q -> string)
    (s error_desc : string) :
  validate_str_iterable float_str (Atom (PyStr s)) error_desc
  = (if bool_decide (str_upper s = "__ALL__"%string)
     then Ok (ValidStr "__ALL__")
     else Raise (ValueError ("unsupported string (" +:+ s +:+ ") given in "
                             +:+ error_desc)))
  /\ (str_upper s = "__ALL__"%string <->
      exists a l1 l2 : ascii,
        s = String "_" (String "_" (String a (String l1 (String l2
              (String "_" (String "_" EmptyString))))))
        /\ (a = "a"%char \/ a = "A"%char)
        /\ (l1 = "l"%char \/ l1 = "L"%char)
        /\ (l2 = "l"%char \/ l2 = "L"%char)).
Proof.
  split; [|apply str_upper_ALL].
  unfold validate_str_iterable, ALL_TOKEN.
  destruct (String.eqb_spec (str_upper s) "__ALL__") as [Heq|Hne].
  - by rewrite bool_decide_true, Heq.
  - by rewrite bool_decide_false.
Qed.

(** X4: [validate_str_iterable] returns for an iterable, with the flattened
    list, and for a string that spells the token; for every other value it
    raises, and what it raises is always a ValueError. *)
Theorem validate_str_iterable_accepts (float_str : Q -> string)
    (val : pyobj) (error_desc : string) :
  ((exists r, validate_str_iterable float_str val error_desc = Ok r)
   <-> (exists items, val = Iter items)
       \/ (exists s, val = Atom (PyStr s) /\ str_upper s = ALL_TOKEN))
  /\ (forall items, val = Iter items ->
        validate_str_iterable float_str val error_desc
        = Ok (ValidList (flatten_iterable items)))
  /\ (forall e, validate_str_iterable float_str val error_desc = Raise e ->
        exists msg, e = ValueError msg).
Proof.
  repeat split.
  - intros [r Hr]. destruct val as [[| | | |s]|items]; simpl in Hr;
      try discriminate Hr; [right|left; eauto].
    exists s. split; [done|].
    destruct (String.eqb_spec (str_upper s) ALL_TOKEN); [done|discriminate].
  - intros [[items ->]|(s & -> & Hs)]; simpl; [eauto|].
    rewrite Hs. simpl. eauto.
  - by intros items ->.
  - intros e He. destruct val as [[| | | |s]|items]; simpl in He;
      try (injection He as <-; eauto); [|discriminate He].
    destruct (negb _); [injection He as <-; eauto|discriminate He].
Qed.

(** ** convert_to_bool, again *)






(** ** round *)

Lemma py_round_nonneg (x : Q) : (0 <= x)%Q -> 0 <= py_round x.
Proof.
  intros Hx. unfold py_round. cbv zeta.
  pose proof (Qfloor_resp_le 0 x Hx) as Hf. change (Qfloor 0) with 0 in Hf.
  destruct (_ ?= _)%Q; [destruct (Z.even _)|..]; lia.
Qed.


(** ** bucket_iterable: the shape of the result *)

Lemma slice_to_nat {A : Type} (l : list A) (n : nat) :
  slice_to l (Z.of_nat n) = take n l.
Proof.
  unfold slice_to, slice_bound.
  rewrite (proj2 (Z.ltb_ge _ _)) by lia. by rewrite Nat2Z.id.
Qed.

Lemma slice_from_nat {A : Type} (l : list A) (n : nat) :
  slice_from l (Z.of_nat n) = drop n l.
Proof.
  unfold slice_from, slice_bound.
  rewrite (proj2 (Z.ltb_ge _ _)) by lia. by rewrite Nat2Z.id.
Qed.

Lemma fst_pair_fmap {A : Type} (b : Z) (l : list A) :
  (pair b <$> l).*1 = replicate (length l) b.
Proof. induction l as [|a l IH]; csimpl; [done|]. by rewrite IH. Qed.

Lemma snd_pair_fmap {A : Type} (b : Z) (l : list A) : (pair b <$> l).*2 = l.
Proof. induction l as [|a l IH]; csimpl; [done|]. by rewrite IH. Qed.

Lemma StronglySorted_replicate (n : nat) (b : Z) :
  StronglySorted Z.le (replicate n b).
Proof.
  induction n as [|n IH]; simpl; constructor; [done|].
  apply Forall_forall. intros c Hc. apply elem_of_replicate in Hc. lia.
Qed.

Section BucketShape.
Context {A : Type}.

(** The loop over the buckets [i], ..., [i + k], the last of which is
    [num_buckets - 1]: what it appends holds the values of [val_list] in
    order, with indices that do not decrease; each bucket before the last
    takes [buckets_count] values or what is left, and the last takes the
    rest. *)
Lemma bucket_loop_shape (buckets_count k i : nat) (val_list : list A)
    (bucketed_values : list (Z * A)) (num_buckets : Z) :
  num_buckets = Z.of_nat (i + S k) ->
  exists appended : list (Z * A),
    (foldl (bucket_step num_buckets (Z.of_nat buckets_count))
           (val_list, bucketed_values) (Z.of_nat <$> seq i (S k))).2
    = bucketed_values ++ appended
    /\ appended.*2 = val_list
    /\ StronglySorted Z.le appended.*1
    /\ Forall (fun b => Z.of_nat i <= b < num_buckets) appended.*1
    /\ forall b : nat,
         bucket_size (Z.of_nat b) appended
         = if decide (b < i)%nat then 0%nat
           else if decide (b < i + k)%nat
                then (buckets_count `min`
                        (length val_list - (b - i) * buckets_count))%nat
                else if decide (b = i + k)%nat
                     then (length val_list - k * buckets_count)%nat
                     else 0%nat.
Proof.
  revert i val_list bucketed_values.
  induction k as [|k IH]; intros i val_list bucketed_values Hnb.
  - exists (pair (Z.of_nat i) <$> val_list). simpl.
    rewrite (proj2 (Z.ltb_ge _ _)) by lia.
    split; [done|]. split; [apply snd_pair_fmap|].
    rewrite fst_pair_fmap.
    split; [apply StronglySorted_replicate|].
    split.
    + apply Forall_forall. intros c Hc. apply elem_of_replicate in Hc. lia.
    + intros b. rewrite bucket_size_pair.
      repeat case_decide; lia.
  - change (seq i (S (S k))) with (i :: seq (S i) (S k)).
    rewrite fmap_cons. cbn [foldl]. unfold bucket_step at 2.
    rewrite (proj2 (Z.ltb_lt _ _)) by lia.
    rewrite slice_to_nat, slice_from_nat.
    destruct (IH (S i) (drop buckets_count val_list)
                (bucketed_values
                 ++ (pair (Z.of_nat i) <$> take buckets_count val_list)))
      as (appended & Hrun & Hvals & Hsorted & Hrange & Hsizes); [lia|].
    exists ((pair (Z.of_nat i) <$> take buckets_count val_list) ++ appended).
    rewrite Hrun, <- app_assoc. split; [done|].
    rewrite !fmap_app, snd_pair_fmap, fst_pair_fmap, Hvals.
    split; [apply take_drop|].
    split.
    { apply StronglySorted_app_2; [|apply StronglySorted_replicate|done].
      intros b1 b2 Hb1 Hb2. apply elem_of_replicate in Hb1.
      rewrite Forall_forall in Hrange. specialize (Hrange b2 Hb2). lia. }
    split.
    { apply Forall_app. split.
      - apply Forall_forall. intros c Hc. apply elem_of_replicate in Hc. lia.
      - eapply Forall_impl; [exact Hrange|]. simpl. lia. }
    intros b. rewrite bucket_size_app, bucket_size_pair, Hsizes.
    rewrite length_take, length_drop.
    destruct (decide (b < S i)%nat) as [Hlt|Hge].
    + replace (b - i)%nat with 0%nat by lia.
      repeat case_decide; lia.
    + replace (b - i)%nat with (S (b - S i)) by lia.
      replace (S k * buckets_count)%nat
        with (buckets_count + k * buckets_count)%nat by lia.
      replace (S (b - S i) * buckets_count)%nat
        with (buckets_count + (b - S i) * buckets_count)%nat by lia.
      repeat case_decide; lia.
Qed.
End BucketShape.

Lemma take_min_length {A : Type} (n : nat) (l : list A) :
  take (n `min` length l) l = take n l.
Proof.
  destruct (decide (n <= length l)%nat).
  - by rewrite Nat.min_l.
  - rewrite Nat.min_r, !take_ge by lia. done.
Qed.

Lemma drop_min_length {A : Type} (n : nat) (l : list A) :
  drop (n `min` length l) l = drop n l.
Proof.
  destruct (decide (n <= length l)%nat).
  - by rewrite Nat.min_l.
  - rewrite Nat.min_r, !drop_ge by lia. done.
Qed.


Lemma Qdiv_nonneg (a b : Z) : 0 <= a -> 0 < b -> (0 <= inject_Z a / inject_Z b)%Q.
Proof.
  intros Ha Hb. apply Qle_shift_div_l.
  - unfold Qlt. simpl. lia.
  - unfold Qle. simpl. lia.
Qed.

Section BucketMore.
Context {A K : Type}.
Variable sort_key : A -> K.
Variable ltb : K -> K -> bool.

(** With [num_buckets >= 1] the result is the edge bucket, which holds the
    first [round(edge_percent * len)] sorted values (none if that is not
    positive, all if it is more than there are), followed by what the loop
    appends for the rest. *)
Lemma bucket_iterable_shape (val : list A) (num_buckets : Z)
    (edge_percent : Q) (sort_highest : bool) :
  1 <= num_buckets ->
  let val_list := list_sort sort_key ltb sort_highest val in
  let edge :=
    (Z.to_nat (py_round (edge_percent * inject_Z (py_len val)))
       `min` length val)%nat in
  let rest := (length val - edge)%nat in
  let buckets_count :=
    Z.to_nat (py_round (inject_Z (Z.of_nat rest) / inject_Z num_buckets)) in
  exists appended : list (Z * A),
    bucket_iterable sort_key ltb val num_buckets edge_percent sort_highest
    = Ok ((pair (-1) <$> take edge val_list) ++ appended)
    /\ appended.*2 = drop edge val_list
    /\ StronglySorted Z.le appended.*1
    /\ Forall (fun b => 0 <= b < num_buckets) appended.*1
    /\ forall b : nat,
         bucket_size (Z.of_nat b) appended
         = if decide (b < Z.to_nat num_buckets - 1)%nat
           then (buckets_count `min` (rest - b * buckets_count))%nat
           else if decide (b = Z.to_nat num_buckets - 1)%nat
                then (rest - (Z.to_nat num_buckets - 1) * buckets_count)%nat
                else 0%nat.
Proof.
  intros Hnb val_list edge rest buckets_count. unfold bucket_iterable.
  fold val_list.
  assert (length val_list = length val) as Hlen by apply list_sort_length.
  assert (py_len val_list = py_len val) as -> by (unfold py_len; lia).
  set (edge_count := py_round _) in *.
  set (st := if 0 <? edge_count then _ else _).
  assert (st = (pair (-1) <$> take edge val_list, drop edge val_list)) as ->.
  { unfold st, edge. rewrite <- Hlen, take_min_length, drop_min_length.
    destruct (Z.ltb_spec 0 edge_count) as [Hpos|Hneg].
    - rewrite <- (Z2Nat.id edge_count) at 1 2 by lia.
      by rewrite slice_to_nat, slice_from_nat.
    - by replace (Z.to_nat edge_count) with 0%nat by lia. }
  assert (py_len (drop edge val_list) = Z.of_nat rest) as ->.
  { unfold py_len, rest. rewrite length_drop. lia. }
  rewrite py_truediv_ok.
  2: { unfold Qeq. simpl. lia. }
  cbn [mbind result_bind].
  pose proof (py_round_nonneg _ (Qdiv_nonneg (Z.of_nat rest) num_buckets
                                   ltac:(lia) ltac:(lia))) as Hbc.
  rewrite <- (Z2Nat.id (py_round _)) by exact Hbc. fold buckets_count.
  rewrite py_range_cons by lia.
  destruct (bucket_loop_shape buckets_count (Z.to_nat (num_buckets - 1)) 0
              (drop edge val_list) (pair (-1) <$> take edge val_list)
              num_buckets) as (appended & Hrun & Hvals & Hsorted & Hrange & Hsizes);
    [lia|].
  exists appended. rewrite Hrun.
  split; [done|]. split; [done|]. split; [done|].
  split.
  { eapply Forall_impl; [exact Hrange|]. simpl. lia. }
  intros b. rewrite Hsizes, length_drop, Hlen. fold rest.
  rewrite Nat.sub_0_r.
  replace (0 + Z.to_nat (num_buckets - 1))%nat
    with (Z.to_nat num_buckets - 1)%nat by lia.
  replace (Z.to_nat (num_buckets - 1)) with (Z.to_nat num_buckets - 1)%nat
    by lia.
  by repeat case_decide; try lia.
Qed.

(** X7: with [num_buckets >= 1] every pair carries the index -1 or an index
    from 0 to [num_buckets - 1], and the indices never decrease along the
    result: the buckets are contiguous groups, the edge bucket first. *)
Theorem bucket_iterable_indices (val : list A) (num_buckets : Z)
    (edge_percent : Q) (sort_highest : bool) (Hnb : 1 <= num_buckets) :
  exists bucketed_values,
    bucket_iterable sort_key ltb val num_buckets edge_percent sort_highest
    = Ok bucketed_values
    /\ Forall (fun p => p.1 = -1 \/ 0 <= p.1 < num_buckets) bucketed_values
    /\ StronglySorted Z.le bucketed_values.*1.
Proof.
  destruct (bucket_iterable_shape val num_buckets edge_percent sort_highest Hnb)
    as (appended & Hrun & _ & Hsorted & Hrange & _).
  eexists. split; [exact Hrun|]. split.
  - apply Forall_app. split.
    + apply Forall_fmap, Forall_true. intros a. by left.
    + apply Forall_fmap in Hrange. eapply Forall_impl; [exact Hrange|].
      intros p Hp. by right.
  - rewrite fmap_app, fst_pair_fmap.
    apply StronglySorted_app_2; [|apply StronglySorted_replicate|done].
    intros b1 b2 Hb1 Hb2. apply elem_of_replicate in Hb1.
    rewrite Forall_forall in Hrange. specialize (Hrange b2 Hb2). lia.
Qed.



(** X10: when [<] on the keys is a total order up to equal keys, the values
    of the result are in the order of the sort, descending with
    [sort_highest]: with the indices that never decrease, a value of a
    lower bucket never comes after a value of a higher one. *)
Theorem bucket_iterable_ordered (val : list A) (num_buckets : Z)
    (edge_percent : Q) (sort_highest : bool) (Hnb : 1 <= num_buckets)
    (Htotal : forall a b,
       may_precede sort_key ltb sort_highest a b = false ->
       may_precede sort_key ltb sort_highest b a = true)
    (Htrans : forall a b c,
       may_precede sort_key ltb sort_highest a b = true ->
       may_precede sort_key ltb sort_highest b c = true ->
       may_precede sort_key ltb sort_highest a c = true) :
  exists bucketed_values,
    bucket_iterable sort_key ltb val num_buckets edge_percent sort_highest
    = Ok bucketed_values
    /\ StronglySorted
         (fun p q => p.1 <= q.1
                     /\ may_precede sort_key ltb sort_highest p.2 q.2 = true)
         bucketed_values.
Proof.
  destruct (bucket_iterable_shape val num_buckets edge_percent sort_highest Hnb)
    as (appended & Hrun & Hvals & Hsorted & Hrange & _).
  eexists. split; [exact Hrun|].
  set (bucketed_values := _ ++ appended).
  assert (StronglySorted Z.le bucketed_values.*1) as Hidx.
  { unfold bucketed_values. rewrite fmap_app, fst_pair_fmap.
    apply StronglySorted_app_2; [|apply StronglySorted_replicate|done].
    intros b1 b2 Hb1 Hb2. apply elem_of_replicate in Hb1.
    rewrite Forall_forall in Hrange. specialize (Hrange b2 Hb2). lia. }
  assert (StronglySorted
            (fun a b => may_precede sort_key ltb sort_highest a b = true)
            bucketed_values.*2) as Hval.
  { unfold bucketed_values.
    rewrite fmap_app, snd_pair_fmap, Hvals, take_drop.
    by apply list_sort_StronglySorted. }
  clearbody bucketed_values. clear -Hidx Hval.
  induction bucketed_values as [|p l IH]; [constructor|].
  rewrite !fmap_cons in *.
  apply StronglySorted_inv in Hidx as [Hidx Hp1].
  apply StronglySorted_inv in Hval as [Hval Hp2].
  constructor; [by apply IH|].
  rewrite Forall_fmap in Hp1. rewrite Forall_fmap in Hp2.
  rewrite Forall_forall in Hp1, Hp2 |- *.
  intros q Hq. split; [exact (Hp1 q Hq)|exact (Hp2 q Hq)].
Qed.
End BucketMore.


Lemma bucket_iterable_indices_witness :
  1 <= 3
  /\ exists bucketed_values,
       bucket_iterable (fun v : Z => v) Z.ltb [3; 1; 2; 5; 4] 3 0.05 true
       = Ok bucketed_values
       /\ Forall (fun p => p.1 = -1 \/ 0 <= p.1 < 3) bucketed_values
       /\ StronglySorted Z.le bucketed_values.*1.
Proof.
  assert (1 <= 3) as Hnb by lia.
  split; [exact Hnb|].
  exact (bucket_iterable_indices (fun v : Z => v) Z.ltb [3; 1; 2; 5; 4] 3
           0.05%Q true Hnb).
Defined.



Lemma bucket_iterable_ordered_witness :
  1 <= 3
  /\ exists bucketed_values,
       bucket_iterable (fun v : Z => v) Z.ltb [3; 1; 2; 5; 4] 3 0.05 true
       = Ok bucketed_values
       /\ StronglySorted
            (fun p q => p.1 <= q.1
                        /\ may_precede (fun v : Z => v) Z.ltb true p.2 q.2 = true)
            bucketed_values.
Proof.
  assert (1 <= 3) as Hnb by lia.
  split; [exact Hnb|].
  apply (bucket_iterable_ordered (fun v : Z => v) Z.ltb [3; 1; 2; 5; 4] 3
           0.05%Q true Hnb).
  - unfold may_precede. intros a b.
    rewrite negb_false_iff, negb_true_iff, Z.ltb_lt, Z.ltb_ge. lia.
  - unfold may_precede. intros a b c.
    rewrite !negb_true_iff, !Z.ltb_ge. lia.
Defined.

(** ** interpolate, again *)



Lemma x_per_of_mono (xa xb x0 x1 : Q) :
  (x0 < x1)%Q -> (xa <= xb)%Q -> (x_per_of xa x0 x1 <= x_per_of xb x0 x1)%Q.
Proof.
  intros Hlt Hle. unfold x_per_of, Qdiv.
  apply Qmult_le_compat_r; [lra|].
  apply Qlt_le_weak, Qinv_lt_0_compat. lra.
Qed.




Section InterpolateMore.
Context {Y : Type}.
Variable y_sub : Y -> Y -> Y.
Variable y_scale : Q -> Y -> Y.
Variable y_add : Y -> Y -> Y.
Variable float_pow : Q -> Q -> Q.


End InterpolateMore.

(** What [interpolate] on floats returns is [y0], [y1], or a value of the
    line from [y0] to [y1] at a [y_per] strictly between 0 and 1. *)
Lemma interpolate_float_cases (float_pow : Q -> Q -> Q)
    (x_cur x0 x1 y0 y1 : Q) (inter_func : string) (v : Q) :
  interpolate_float float_pow x_cur x0 x1 y0 y1 inter_func = Ok v ->
  v = y0 \/ v = y1
  \/ exists y_per, (0 < y_per < 1)%Q /\ v = (y_per * (y1 - y0) + y0)%Q.
Proof.
  unfold interpolate_float, interpolate. intros Hv.
  destruct (negb _); [discriminate Hv|].
  destruct (py_truediv _ _) as [x_per|]; [|discriminate Hv].
  cbn [mbind result_bind] in Hv.
  destruct (curve _ _ _) as [y_per|]; [|discriminate Hv].
  cbn [mbind result_bind] in Hv.
  destruct epsilon_bounds as [Heps0 Heps1].
  destruct (Qle_bool y_per _) eqn:Hlow; [injection Hv as <-; by left|].
  destruct (Qle_bool _ y_per) eqn:Hhigh; [injection Hv as <-; by right; left|].
  injection Hv as <-. right; right. exists y_per.
  apply Qle_bool_false in Hlow, Hhigh. split; [lra|done].
Qed.

(** X13: on floats, whatever the curve and [x_cur], a value that
    [interpolate] returns lies between [y0] and [y1]. *)
Theorem interpolate_float_range (float_pow : Q -> Q -> Q)
    (x_cur x0 x1 y0 y1 : Q) (inter_func : string) (v : Q)
    (Hv : interpolate_float float_pow x_cur x0 x1 y0 y1 inter_func = Ok v) :
  ((y0 <= y1)%Q -> (y0 <= v <= y1)%Q)
  /\ ((y1 <= y0)%Q -> (y1 <= v <= y0)%Q).
Proof.
  apply interpolate_float_cases in Hv
    as [-> | [-> | (y_per & Hper & ->)]]; split; intros Hy; try lra; nra.
Qed.

(** X14: on floats, with [x0 < x1] and [y0 <= y1], the linear curve never
    decreases: a larger [x_cur] does not give a smaller result. *)
Theorem interpolate_linear_monotone (float_pow : Q -> Q -> Q)
    (xa xb x0 x1 y0 y1 : Q)
    (Hlt : (x0 < x1)%Q) (Hy : (y0 <= y1)%Q) (Hx : (xa <= xb)%Q) :
  exists va vb,
    interpolate_float float_pow xa x0 x1 y0 y1 "linear" = Ok va
    /\ interpolate_float float_pow xb x0 x1 y0 y1 "linear" = Ok vb
    /\ (va <= vb)%Q.
Proof.
  assert (~ (x1 == x0)%Q) as Hne by lra.
  assert ("linear"%string ∈ INTERPOLATION_FUNCS) as Hin
    by apply list_elem_of_here.
  pose proof (x_per_of_mono xa xb x0 x1 Hlt Hx) as Hmono.
  destruct epsilon_bounds as [Heps0 Heps1].
  unfold interpolate_float. rewrite !interpolate_unfold by done.
  change (curve float_pow "linear" ?x) with (Ok x).
  cbn [mbind result_bind].
  set (pa := x_per_of xa x0 x1) in *. set (pb := x_per_of xb x0 x1) in *.
  destruct (Qle_bool pa _) eqn:Ha1; destruct (Qle_bool pb _) eqn:Hb1;
    try destruct (Qle_bool _ pa) eqn:Ha2; try destruct (Qle_bool _ pb) eqn:Hb2;
    do 2 eexists; (split; [reflexivity|]); (split; [reflexivity|]);
    rewrite ?Qle_bool_iff, ?Qle_bool_false in *; try lra; nra.
Qed.



Lemma interpolate_float_range_witness :
  interpolate_float (fun _ _ => 0%Q) 2 1 3 5 7 "linear" = Ok (12 # 2)
  /\ ((5 <= 7)%Q -> (5 <= 12 # 2 <= 7)%Q)
  /\ ((7 <= 5)%Q -> (7 <= 12 # 2 <= 5)%Q).
Proof.
  assert (interpolate_float (fun _ _ => 0%Q) 2 1 3 5 7 "linear" = Ok (12 # 2))
    as Hv by reflexivity.
  split; [exact Hv|].
  exact (interpolate_float_range (fun _ _ => 0%Q) 2 1 3 5 7 "linear" (12 # 2) Hv).
Defined.

Lemma interpolate_linear_monotone_witness :
  (1 < 3)%Q /\ (5 <= 7)%Q /\ (2 <= 5 # 2)%Q
  /\ exists va vb,
       interpolate_float (fun _ _ => 0%Q) 2 1 3 5 7 "linear" = Ok va
       /\ interpolate_float (fun _ _ => 0%Q) (5 # 2) 1 3 5 7 "linear" = Ok vb
       /\ (va <= vb)%Q.
Proof.
  assert (1 < 3)%Q as Hlt by reflexivity.
  assert (5 <= 7)%Q as Hy by (intros H; discriminate H).
  assert (2 <= 5 # 2)%Q as Hx by (intros H; discriminate H).
  split; [exact Hlt|]. split; [exact Hy|]. split; [exact Hx|].
  exact (interpolate_linear_monotone (fun _ _ => 0%Q) 2 (5 # 2) 1 3 5 7 Hlt Hy Hx).
Defined.

(** ** interpolated_integral, again *)

Lemma precedes_fst_total (p q : Q * Q) :
  may_precede fst Qlt_bool false p q = false ->
  may_precede fst Qlt_bool false q p = true.
Proof.
  intros Hpq. apply precedes_fst_Qle.
  apply not_true_iff_false in Hpq. rewrite precedes_fst_Qle in Hpq.
  apply Qlt_le_weak, Qnot_le_lt, Hpq.
Qed.

Lemma precedes_fst_trans (p q r : Q * Q) :
  may_precede fst Qlt_bool false p q = true ->
  may_precede fst Qlt_bool false q r = true ->
  may_precede fst Qlt_bool false p r = true.
Proof. rewrite !precedes_fst_Qle. apply Qle_trans. Qed.

Lemma sort_by_x_idemp (l : list (Q * Q)) :
  list_sort fst Qlt_bool false (list_sort fst Qlt_bool false l)
  = list_sort fst Qlt_bool false l.
Proof.
  apply list_sort_sorted, list_sort_StronglySorted.
  - apply precedes_fst_total.
  - apply precedes_fst_trans.
Qed.

(** X15: a second call on the list that the first call left gives the
    result of the first call again and leaves the list as it is. *)
Theorem interpolated_integral_again (measurements : list (Q * Q)) :
  interpolated_integral (interpolated_integral measurements).2
  = interpolated_integral measurements.
Proof.
  destruct (decide (length measurements < 2)%nat) as [Hshort|Hlong].
  - by rewrite interpolated_integral_short_unchanged.
  - rewrite (interpolated_integral_sorted measurements) by lia.
    cbv zeta. cbn [snd].
    rewrite interpolated_integral_sorted by (rewrite list_sort_length; lia).
    cbv zeta. by rewrite sort_by_x_idemp.
Qed.

(** X16: when no two different measurements have the same x, the order in
    which the measurements are given does not matter: a permutation of the
    list gives the same result and leaves the same list. *)
Theorem interpolated_integral_order (l1 l2 : list (Q * Q))
    (Hperm : l1 ≡ₚ l2)
    (Hkeys : forall p q, p ∈ l1 -> q ∈ l1 -> (p.1 == q.1)%Q -> p = q) :
  interpolated_integral l1 = interpolated_integral l2.
Proof.
  pose proof (Permutation_length Hperm) as Hlen.
  destruct (decide (length l1 < 2)%nat) as [Hshort|Hlong].
  - destruct l1 as [|p [|q l1]]; simpl in Hshort; [| |lia].
    + by apply Permutation_nil in Hperm as ->.
    + by apply Permutation_singleton_l in Hperm as ->.
  - rewrite !interpolated_integral_sorted by lia. cbv zeta.
    assert (list_sort fst Qlt_bool false l1 = list_sort fst Qlt_bool false l2)
      as ->; [|done].
    apply (StronglySorted_unique_strong (fun p q => (p.1 <= q.1)%Q)).
    + intros p q Hp Hq Hpq Hqp.
      rewrite list_sort_Permutation in Hp. rewrite list_sort_Permutation in Hq.
      rewrite <- Hperm in Hq.
      apply Hkeys; [done..|]. by apply Qle_antisym.
    + apply sort_by_x_StronglySorted.
    + apply sort_by_x_StronglySorted.
    + by rewrite !list_sort_Permutation.
Qed.

(** With ties in x the order does matter. *)
Lemma interpolated_integral_order_ties :
  returns (interpolated_integral [(0, 0); (1, 1); (1, 5); (3, 0)]%Q).1 (11 # 2)
  /\ returns (interpolated_integral [(0, 0); (1, 5); (1, 1); (3, 0)]%Q).1 (7 # 2).
Proof. by vm_compute. Qed.

Lemma sorted_by_x_ends (l : list (Q * Q)) (first final : Q * Q) :
  StronglySorted (fun p q => (p.1 <= q.1)%Q) l ->
  head l = Some first -> last l = Some final ->
  Forall (fun p => (first.1 <= p.1 <= final.1)%Q) l.
Proof.
  intros Hsorted. revert first.
  induction Hsorted as [|p l Hl IH Hp]; intros first Hfirst Hfinal;
    [discriminate Hfirst|].
  injection Hfirst as <-.
  destruct l as [|q l].
  - injection Hfinal as <-. constructor; [|constructor]. lra.
  - change (last (p :: q :: l)) with (last (q :: l)) in Hfinal.
    specialize (IH q eq_refl Hfinal).
    assert (final ∈ q :: l) as Hin.
    { apply list_elem_of_lookup. exists (pred (length (q :: l))).
      by rewrite <- last_lookup. }
    rewrite Forall_forall in Hp. pose proof (Hp final Hin) as Hpf.
    constructor; [cbn beta in Hpf |- *; lra|].
    rewrite Forall_forall in IH |- *. intros r Hr.
    specialize (IH r Hr). specialize (Hp r Hr). cbn beta in *. lra.
Qed.

Lemma trapezoid_sum_cons (p q : Q * Q) (l : list (Q * Q)) :
  trapezoid_sum (p :: q :: l)
  = ((p.2 + q.2) / 2 * (q.1 - p.1) + trapezoid_sum (q :: l))%Q.
Proof. reflexivity. Qed.

Lemma trapezoid_sum_bounds (lo hi : Q) (l : list (Q * Q)) :
  StronglySorted (fun p q => (p.1 <= q.1)%Q) l ->
  Forall (fun p => (lo <= p.2 <= hi)%Q) l ->
  forall first final, head l = Some first -> last l = Some final ->
    (lo * (final.1 - first.1) <= trapezoid_sum l <= hi * (final.1 - first.1))%Q.
Proof.
  induction 1 as [|p l Hl IH Hp]; intros Hy first final Hfirst Hfinal;
    [discriminate Hfirst|].
  injection Hfirst as <-.
  apply Forall_cons in Hy as [Hyp Hy].
  destruct l as [|q l].
  - injection Hfinal as <-. simpl. nra.
  - change (last (p :: q :: l)) with (last (q :: l)) in Hfinal.
    specialize (IH Hy q final eq_refl Hfinal).
    apply Forall_cons in Hp as [Hpq _].
    apply Forall_cons in Hy as [Hyq _].
    rewrite trapezoid_sum_cons. cbn beta in Hpq, Hyp, Hyq.
    destruct Hyp as [Hyp1 Hyp2]. destruct Hyq as [Hyq1 Hyq2].
    assert (lo <= (p.2 + q.2) / 2)%Q by (apply Qle_shift_div_l; lra).
    assert ((p.2 + q.2) / 2 <= hi)%Q by (apply Qle_shift_div_r; lra).
    set (mean := ((p.2 + q.2) / 2)%Q) in *. clearbody mean.
    assert (0 <= (mean - lo) * (q.1 - p.1))%Q
      by (apply Qmult_le_0_compat; lra).
    assert (0 <= (hi - mean) * (q.1 - p.1))%Q
      by (apply Qmult_le_0_compat; lra).
    destruct IH as [IHlo IHhi].
    set (area := trapezoid_sum (q :: l)) in *. clearbody area.
    split; lra.
Qed.

(** X17: on at least two measurements whose y all lie between [lo] and
    [hi], the result lies between [lo] and [hi] times the width of the
    measurements, from the least x to the greatest; so equal y give that y
    times the width. *)
Theorem interpolated_integral_bounds (lo hi : Q) (measurements : list (Q * Q))
    (Hlen : (2 <= length measurements)%nat)
    (Hy : Forall (fun p => (lo <= p.2 <= hi)%Q) measurements) :
  exists v first final,
    (interpolated_integral measurements).1 = Ok v
    /\ head (interpolated_integral measurements).2 = Some first
    /\ last (interpolated_integral measurements).2 = Some final
    /\ Forall (fun p => (first.1 <= p.1 <= final.1)%Q) measurements
    /\ (lo * (final.1 - first.1) <= v <= hi * (final.1 - first.1))%Q.
Proof.
  rewrite interpolated_integral_sorted by done. cbv zeta. cbn [fst snd].
  set (by_x := list_sort fst Qlt_bool false measurements).
  pose proof (sort_by_x_StronglySorted measurements) as Hsorted. fold by_x in Hsorted.
  assert (by_x ≡ₚ measurements) as Hperm by apply list_sort_Permutation.
  destruct (integral_loop [] by_x 0) as (v & Hv & Heq).
  unfold enumerate, py_range, py_len. rewrite Nat2Z.id.
  simpl in Hv. rewrite Hv.
  assert (exists first, head by_x = Some first) as [first Hfirst].
  { destruct by_x; [|eauto]. apply Permutation_length in Hperm.
    simpl in Hperm. lia. }
  assert (exists final, last by_x = Some final) as [final Hfinal].
  { destruct (last by_x) eqn:Hlast; [eauto|].
    apply last_None in Hlast. rewrite Hlast in Hperm.
    apply Permutation_length in Hperm. simpl in Hperm. lia. }
  exists v, first, final. split; [done|]. split; [done|]. split; [done|].
  split.
  - rewrite <- Hperm. by apply sorted_by_x_ends.
  - rewrite Heq, Qplus_0_l.
    apply trapezoid_sum_bounds; [done| |done..].
    by rewrite Hperm.
Qed.

Lemma interpolated_integral_order_witness :
  [(2, 0); (0, 0); (1, 1)]%Q ≡ₚ [(0, 0); (1, 1); (2, 0)]%Q
  /\ (forall p q : Q * Q,
        p ∈ [(2, 0); (0, 0); (1, 1)]%Q -> q ∈ [(2, 0); (0, 0); (1, 1)]%Q ->
        (p.1 == q.1)%Q -> p = q)
  /\ interpolated_integral [(2, 0); (0, 0); (1, 1)]%Q
     = interpolated_integral [(0, 0); (1, 1); (2, 0)]%Q.
Proof.
  assert ([(2, 0); (0, 0); (1, 1)]%Q ≡ₚ [(0, 0); (1, 1); (2, 0)]%Q) as Hperm.
  { change ([(2, 0)%Q] ++ [(0, 0); (1, 1)]%Q ≡ₚ [(0, 0); (1, 1)]%Q ++ [(2, 0)%Q]).
    apply Permutation_app_comm. }
  assert (forall p q : Q * Q,
            p ∈ [(2, 0); (0, 0); (1, 1)]%Q -> q ∈ [(2, 0); (0, 0); (1, 1)]%Q ->
            (p.1 == q.1)%Q -> p = q) as Hkeys.
  { intros p q Hp Hq.
    rewrite !elem_of_cons, elem_of_nil in Hp, Hq.
    destruct Hp as [-> | [-> | [-> | []]]];
      destruct Hq as [-> | [-> | [-> | []]]];
      intros Heq; try reflexivity; discriminate Heq. }
  split; [exact Hperm|]. split; [exact Hkeys|].
  exact (interpolated_integral_order _ _ Hperm Hkeys).
Defined.

Lemma interpolated_integral_bounds_witness :
  (2 <= length [(2, 0); (0, 0); (1, 1)]%Q)%nat
  /\ Forall (fun p : Q * Q => (0 <= p.2 <= 1)%Q) [(2, 0); (0, 0); (1, 1)]%Q
  /\ exists v first final,
       (interpolated_integral [(2, 0); (0, 0); (1, 1)]%Q).1 = Ok v
       /\ head (interpolated_integral [(2, 0); (0, 0); (1, 1)]%Q).2 = Some first
       /\ last (interpolated_integral [(2, 0); (0, 0); (1, 1)]%Q).2 = Some final
       /\ Forall (fun p : Q * Q => (first.1 <= p.1 <= final.1)%Q)
            [(2, 0); (0, 0); (1, 1)]%Q
       /\ (0 * (final.1 - first.1) <= v <= 1 * (final.1 - first.1))%Q.
Proof.
  assert (2 <= length [(2, 0); (0, 0); (1, 1)]%Q)%nat as Hlen by (simpl; lia).
  assert (Forall (fun p : Q * Q => (0 <= p.2 <= 1)%Q)
            [(2, 0); (0, 0); (1, 1)]%Q) as Hy.
  { repeat constructor; intros H; discriminate H. }
  split; [exact Hlen|]. split; [exact Hy|].
  exact (interpolated_integral_bounds 0 1 _ Hlen Hy).
Defined.

(** ** create_unique_dir, again *)

(** The decimal digits of a positive number start with a digit from 1 to
    9. *)
Lemma pretty_N_go_first (x : N) (s : string) :
  (0 < x)%N ->
  exists c s', pretty_N_go x s = String c s'
               /\ c <> "0"%char /\ c <> "-"%char.
Proof.
  revert s. induction (N.lt_wf_0 x) as [x _ IH]; intros s Hx.
  rewrite pretty_N_go_step by done.
  destruct (decide (x `div` 10 = 0)%N) as [Hdiv|Hdiv].
  - rewrite Hdiv, pretty_N_go_0. eexists _, _. split; [done|].
    assert (x < 10)%N as Hlt.
    { destruct (decide (x < 10)%N) as [|Hge]; [done|].
      apply N.nlt_ge in Hge.
      pose proof (N.div_str_pos x 10 (conj eq_refl Hge)) as Hpos.
      rewrite Hdiv in Hpos. by apply N.lt_irrefl in Hpos. }
    rewrite N.mod_small by done.
    assert (x = 1 \/ x = 2 \/ x = 3 \/ x = 4 \/ x = 5 \/ x = 6
            \/ x = 7 \/ x = 8 \/ x = 9)%N as Hcases by lia.
    by destruct Hcases as [->|[->|[->|[->|[->|[->|[->|[->| ->]]]]]]]].
  - apply IH; [apply N.div_lt; lia|by apply N.neq_0_lt_0].
Qed.

(** The decimal digits of a number [n >= 0]: not empty, without a sign, and
    with a zero in front only for zero itself. *)
Lemma pretty_Z_first (n : Z) :
  0 <= n ->
  exists c s', pretty n = String c s'
               /\ c <> "-"%char /\ (c = "0"%char -> s' = EmptyString).
Proof.
  intros Hn. destruct n as [|x|x]; [|clear Hn|lia].
  - by exists "0"%char, EmptyString.
  - unfold pretty, pretty_Z, pretty, pretty_positive, pretty, pretty_N.
    rewrite decide_False by done.
    destruct (pretty_N_go_first (N.pos x) EmptyString) as (c & s' & -> & Hc0 & Hcd);
      [lia|].
    by exists c, s'.
Qed.

Lemma zero_fill_unfold (w : nat) (s : string) :
  zero_fill w s
  = String.concat EmptyString (replicate (w - String.length s) "0"%string) +:+ s.
Proof. reflexivity. Qed.

Lemma zeros_S (k : nat) :
  String.concat EmptyString (replicate (S k) "0"%string)
  = String "0" (String.concat EmptyString (replicate k "0"%string)).
Proof. by destruct k. Qed.

Lemma string_app_nil (s1 s2 : string) :
  s1 +:+ s2 = EmptyString -> s1 = EmptyString /\ s2 = EmptyString.
Proof. by destruct s1. Qed.

(** Zeros in front of digits can be told from the digits. *)
Lemma zeros_cancel (k1 k2 : nat) (s1 s2 : string) :
  (exists c s', s1 = String c s' /\ (c = "0"%char -> s' = EmptyString)) ->
  (exists c s', s2 = String c s' /\ (c = "0"%char -> s' = EmptyString)) ->
  String.concat EmptyString (replicate k1 "0"%string) +:+ s1
  = String.concat EmptyString (replicate k2 "0"%string) +:+ s2 ->
  s1 = s2.
Proof.
  intros (c1 & t1 & -> & H1) (c2 & t2 & -> & H2).
  revert k2. induction k1 as [|k1 IH]; intros [|k2]; rewrite ?zeros_S; simpl.
  - done.
  - intros [= -> Ht]. rewrite H1 in Ht by done.
    symmetry in Ht. by apply string_app_nil in Ht as [_ ?].
  - intros [= <- Ht]. rewrite H2 in Ht by done.
    by apply string_app_nil in Ht as [_ ?].
  - intros [= Ht]. by apply IH in Ht.
Qed.

(** The text that ["{:04d}"] prints tells the number. *)
Lemma format_04d_distinct_helper (a b : Z) :
  a <> b -> format_04d a <> format_04d b.
Proof.
  intros Hne Heq. apply Hne. clear Hne. unfold format_04d in Heq.
  assert (forall n, 0 <= n ->
    exists c s', pretty n = String c s' /\ (c = "0"%char -> s' = EmptyString))
    as Hdigits.
  { intros n Hn. destruct (pretty_Z_first n Hn) as (c & s' & ? & _ & ?). eauto. }
  assert (forall w n, 0 <= n ->
    exists c s', zero_fill w (pretty n) = String c s' /\ c <> "-"%char)
    as Hnosign.
  { intros w n Hn. rewrite zero_fill_unfold.
    destruct (w - String.length (pretty n))%nat as [|k].
    - destruct (pretty_Z_first n Hn) as (c & s' & -> & ? & _). simpl. eauto.
    - rewrite zeros_S. simpl. eexists _, _. split; [done|]. done. }
  destruct (Z.ltb_spec a 0) as [Ha|Ha], (Z.ltb_spec b 0) as [Hb|Hb].
  - injection Heq as Heq. rewrite !zero_fill_unfold in Heq.
    apply zeros_cancel in Heq; [|apply Hdigits; lia..].
    apply (inj pretty) in Heq. lia.
  - destruct (Hnosign 4%nat b Hb) as (c & s' & Hs & Hc).
    rewrite Hs in Heq. injection Heq as <- _. done.
  - destruct (Hnosign 4%nat a Ha) as (c & s' & Hs & Hc).
    rewrite Hs in Heq. injection Heq as -> _. done.
  - rewrite !zero_fill_unfold in Heq.
    apply zeros_cancel in Heq; [|apply Hdigits; lia..].
    by apply (inj pretty) in Heq.
Qed.

(** X18: different check numbers give different names: the text that
    ["{:04d}"] prints tells the number. *)
Theorem format_04d_distinct (a b : Z) (Hne : a <> b) :
  format_04d a <> format_04d b.
Proof. by apply format_04d_distinct_helper. Qed.

Lemma format_04d_distinct_witness :
  1 <> 2 /\ format_04d 1 <> format_04d 2.
Proof.
  assert (1 <> 2) as Hne by lia.
  split; [exact Hne|]. exact (format_04d_distinct 1 2 Hne).
Defined.


Section UniqueDirMore.
Variable clean_path : string -> string.

(** Either a free number is reached within the depth, and the path of the
    first one is returned, or the numbers within the depth are all taken,
    and the recursion runs out. *)
Lemma create_unique_dir_cases (depth : nat) (path : string) (check_number : Z)
    (fs : gset string) :
  (exists k : nat,
     (k < depth)%nat
     /\ (check_path_of clean_path path (check_number + Z.of_nat k) ∉ fs)
     /\ (forall j : nat, (j < k)%nat ->
           check_path_of clean_path path (check_number + Z.of_nat j) ∈ fs)
     /\ create_unique_dir clean_path depth path check_number fs
        = (Ok (check_path_of clean_path path (check_number + Z.of_nat k)), fs))
  \/ ((forall j : nat, (j < depth)%nat ->
         check_path_of clean_path path (check_number + Z.of_nat j) ∈ fs)
      /\ create_unique_dir clean_path depth path check_number fs
         = (Raise RecursionError, fs)).
Proof.
  revert check_number.
  induction depth as [|depth IH]; intros check_number.
  - right. split; [intros j Hj; lia|done].
  - cbn [create_unique_dir]. unfold path_exists.
    case_bool_decide as Hin; cbn [negb].
    + destruct (IH (check_number + 1))
        as [(k & Hk & Hfree & Htaken & Hrun)|[Htaken Hrun]].
      * left. exists (S k).
        replace (check_number + Z.of_nat (S k))
          with (check_number + 1 + Z.of_nat k) by lia.
        split; [lia|]. split; [done|]. split; [|done].
        intros [|j] Hj.
        -- by replace (check_number + Z.of_nat 0) with check_number by lia.
        -- replace (check_number + Z.of_nat (S j))
             with (check_number + 1 + Z.of_nat j) by lia.
           apply Htaken. lia.
      * right. split; [|done]. intros [|j] Hj.
        -- by replace (check_number + Z.of_nat 0) with check_number by lia.
        -- replace (check_number + Z.of_nat (S j))
             with (check_number + 1 + Z.of_nat j) by lia.
           apply Htaken. lia.
    + left. exists 0%nat.
      replace (check_number + Z.of_nat 0) with check_number by lia.
      split; [lia|]. split; [done|]. split; [intros j Hj; lia|done].
Qed.

(** X19: [create_unique_dir] returns the path of the first check number,
    from [check_number] on, whose path does not exist: a path is returned
    exactly when it is that of a free number within the depth of the
    recursion, all numbers before it being taken. *)
Theorem create_unique_dir_first_free (depth : nat) (path : string)
    (check_number : Z) (fs : gset string) (p : string) :
  (create_unique_dir clean_path depth path check_number fs).1 = Ok p
  <-> exists k : nat,
        (k < depth)%nat
        /\ p = check_path_of clean_path path (check_number + Z.of_nat k)
        /\ (p ∉ fs)
        /\ (forall j : nat, (j < k)%nat ->
              check_path_of clean_path path (check_number + Z.of_nat j) ∈ fs).
Proof.
  split.
  - intros Hrun.
    destruct (create_unique_dir_cases depth path check_number fs)
      as [(k & Hk & Hfree & Htaken & Hcase)|[_ Hcase]];
      rewrite Hcase in Hrun; [|discriminate Hrun].
    injection Hrun as <-. by exists k.
  - intros (k & Hk & -> & Hfree & Htaken).
    by rewrite (create_unique_dir_finds clean_path k).
Qed.

(** X20: the only exception of [create_unique_dir] is the RecursionError,
    raised exactly when the paths of all check numbers within the depth of
    the recursion exist. *)
Theorem create_unique_dir_recursion (depth : nat) (path : string)
    (check_number : Z) (fs : gset string) :
  ((create_unique_dir clean_path depth path check_number fs).1 = Raise RecursionError
   <-> forall j : nat, (j < depth)%nat ->
         check_path_of clean_path path (check_number + Z.of_nat j) ∈ fs)
  /\ (forall e, (create_unique_dir clean_path depth path check_number fs).1 = Raise e ->
        e = RecursionError).
Proof.
  destruct (create_unique_dir_cases depth path check_number fs)
    as [(k & Hk & Hfree & Htaken & Hcase)|[Htaken Hcase]]; rewrite Hcase.
  - split; [|intros e He; discriminate He].
    split; [intros He; discriminate He|].
    intros Hall. destruct Hfree. by apply Hall.
  - split; [|by intros e [= <-]]. done.
Qed.

End UniqueDirMore.

Lemma create_unique_dir_first_free_witness :
  (create_unique_dir (fun p => p) 5 "/tmp/run" 0 ∅).1 = Ok "/tmp/run-0000"%string
  <-> exists k : nat,
        (k < 5)%nat
        /\ "/tmp/run-0000"%string
           = check_path_of (fun p => p) "/tmp/run" (0 + Z.of_nat k)
        /\ ("/tmp/run-0000"%string ∉ (∅ : gset string))
        /\ (forall j : nat, (j < k)%nat ->
              check_path_of (fun p => p) "/tmp/run" (0 + Z.of_nat j)
              ∈ (∅ : gset string)).
Proof.
  exact (create_unique_dir_first_free (fun p => p) 5 "/tmp/run" 0 ∅
           "/tmp/run-0000").
Defined.


(** ** create_dirs *)

Section MakeDirsProps.
Variable clean_path : string -> string.
Variable parents : string -> gset string.

Lemma create_dirs_exists_helper (path : string) (fs : gset string) :
  (create_dirs clean_path parents path fs).1 = None
  /\ (clean_path path ∈ (create_dirs clean_path parents path fs).2)
  /\ fs ⊆ (create_dirs clean_path parents path fs).2.
Proof.
  unfold create_dirs, os_makedirs, path_exists.
  case_bool_decide; simpl; [done|]. split; [done|]. set_solver.
Qed.

(** X22: [create_dirs] takes a path that exists for done, without an error
    and without a change; after the call the cleaned path exists, what
    existed before still exists, and a second call changes nothing. *)
Theorem create_dirs_exists (path : string) (fs : gset string) :
  (clean_path path ∈ fs -> create_dirs clean_path parents path fs = (None, fs))
  /\ (create_dirs clean_path parents path fs).1 = None
  /\ (clean_path path ∈ (create_dirs clean_path parents path fs).2)
  /\ fs ⊆ (create_dirs clean_path parents path fs).2
  /\ create_dirs clean_path parents path
       (create_dirs clean_path parents path fs).2
     = (None, (create_dirs clean_path parents path fs).2).
Proof.
  assert (forall fs' : gset string,
            clean_path path ∈ fs' ->
            create_dirs clean_path parents path fs' = (None, fs')) as Hdone.
  { intros fs' Hin. unfold create_dirs, os_makedirs, path_exists.
    by rewrite bool_decide_true. }
  destruct (create_dirs_exists_helper path fs) as (Hret & Hin & Hsub).
  split; [apply Hdone|]. split; [done|]. split; [done|]. split; [done|].
  by apply Hdone.
Qed.

(** X23: when the caller creates the returned directory, the next call
    returns another path: with a [clean_path] that leaves a cleaned path as
    it is, after [create_unique_dir] has returned a path and [create_dirs]
    has been called on it, the path exists and [create_unique_dir] on the
    same base path does not return it again. *)
Theorem create_unique_dir_then_create_dirs (depth : nat) (path : string)
    (fs : gset string) (first : string)
    (Hidem : forall q, clean_path (clean_path q) = clean_path q)
    (Hfirst : (create_unique_dir clean_path depth path 0 fs).1 = Ok first) :
  (first ∉ fs)
  /\ (create_dirs clean_path parents first fs).1 = None
  /\ (first ∈ (create_dirs clean_path parents first fs).2)
  /\ (forall second,
        (create_unique_dir clean_path depth path 0
           (create_dirs clean_path parents first fs).2).1
        = Ok second ->
        second <> first /\ second ∉ (create_dirs clean_path parents first fs).2).
Proof.
  pose proof (create_unique_dir_fresh clean_path depth path 0 fs first Hfirst)
    as Hfresh.
  assert (clean_path first = first) as Hclean.
  { destruct (create_unique_dir_cases clean_path depth path 0 fs)
      as [(k & _ & _ & _ & Hcase)|[_ Hcase]];
      rewrite Hcase in Hfirst; [|discriminate Hfirst].
    injection Hfirst as <-. apply Hidem. }
  destruct (create_dirs_exists_helper first fs) as (Hret & Hin & _).
  rewrite Hclean in Hin.
  split; [done|]. split; [done|]. split; [done|].
  intros second Hsecond.
  apply create_unique_dir_fresh in Hsecond.
  split; [|done]. by intros ->.
Qed.
End MakeDirsProps.

Lemma create_unique_dir_then_create_dirs_witness :
  (forall q : string,
     (fun p : string => p) ((fun p : string => p) q) = (fun p : string => p) q)
  /\ (create_unique_dir (fun p => p) 5 "/tmp/run" 0 ∅).1
     = Ok "/tmp/run-0000"%string
  /\ ("/tmp/run-0000"%string ∉ (∅ : gset string))
  /\ (create_dirs (fun p => p) (fun _ => ∅) "/tmp/run-0000" ∅).1 = None
  /\ ("/tmp/run-0000"%string
      ∈ (create_dirs (fun p => p) (fun _ => ∅) "/tmp/run-0000" ∅).2)
  /\ (forall second,
        (create_unique_dir (fun p => p) 5 "/tmp/run" 0
           (create_dirs (fun p => p) (fun _ => ∅) "/tmp/run-0000" ∅).2).1
        = Ok second ->
        second <> "/tmp/run-0000"%string
        /\ second ∉ (create_dirs (fun p => p) (fun _ => ∅) "/tmp/run-0000" ∅).2).
Proof.
  assert (forall q : string,
            (fun p : string => p) ((fun p : string => p) q)
            = (fun p : string => p) q) as Hidem by (intros q; reflexivity).
  assert ((create_unique_dir (fun p => p) 5 "/tmp/run" 0 ∅).1
          = Ok "/tmp/run-0000"%string) as Hfirst by (vm_compute; reflexivity).
  split; [exact Hidem|]. split; [exact Hfirst|].
  exact (create_unique_dir_then_create_dirs (fun p => p) (fun _ => ∅) 5
           "/tmp/run" ∅ "/tmp/run-0000" Hidem Hfirst).
Defined.
